(** * EZ-Game-search: the place-details batching proxy

    A shallow embedding of the three batching handlers of the repository
    (the filtering serverless handler, [api/get-place-details.js] and the
    Express route of [server.js]) together with the JavaScript built-ins
    they call, and the properties of the batching, aggregation and
    partial-failure logic.

    Conventions.
    - A JavaScript string is represented by the [string] of the bytes of
      its UTF-8 encoding.  Query strings reach the handlers percent-decoded
      from a URL, so every string they see is well formed.
    - The upstream service is a state-passing oracle: a type of worlds and a
      [fetch] function, both variables of the development.
    - Every handler returns, besides its HTTP response, the log of the
      upstream calls it made. *)

From Stdlib Require Import List String Ascii NArith ZArith Arith Bool Lia.
From Stdlib Require Import DecimalString Sorted.
From Stdlib Require Finite.
From Equations Require Import Equations.
Import ListNotations.
Local Open Scope string_scope.

Set Implicit Arguments.
Set Warnings "-register-all".

(** ** JavaScript built-ins used by the handlers *)

Module JS.

(** The outcome of an operation that may throw: the message of the error
    thrown, or the value returned. *)
Inductive Completion (A : Type) : Type :=
| Throws (message : string)
| Returns (a : A).
Arguments Throws {A} message.
Arguments Returns {A} a.

(** Values produced by [JSON.parse] and consumed by [res.json]. Object
    members keep their insertion order. *)
Inductive Json : Type :=
| JNull
| JBool (b : bool)
| JNum (z : Z)
| JStr (s : string)
| JArr (items : list Json)
| JObj (members : list (string * Json)).

(** [Array.isArray] *)
Definition Array_isArray (v : Json) : bool :=
  match v with
  | JArr _ => true
  | _ => false
  end.

(** [Array.prototype.concat] with one argument: an array argument is spread
    one level, anything else is appended as a single element. *)
Definition Array_concat (xs : list Json) (v : Json) : list Json :=
  match v with
  | JArr items => xs ++ items
  | _ => xs ++ [v]
  end.

(** [Array.prototype.push] with one argument. *)
Definition Array_push (A : Type) (xs : list A) (v : A) : list A := xs ++ [v].

(** [Array.prototype.slice(start, end)] for [0 <= start <= end]; both
    bounds are clamped to the length of the array. *)
Definition Array_slice (A : Type) (xs : list A) (start stop : nat) : list A :=
  firstn (stop - start) (skipn start xs).

(** [Array.prototype.join] *)
Definition Array_join (sep : string) (xs : list string) : string :=
  String.concat sep xs.

(** *** White space

    [String.prototype.trim] and [parseInt] strip the code points of
    WhiteSpace and LineTerminator: U+0009..U+000D, U+0020, U+00A0, U+1680,
    U+2000..U+200A, U+2028, U+2029, U+202F, U+205F, U+3000 and U+FEFF.
    [ws1], [ws2] and [ws3] recognise their one-, two- and three-byte
    encodings. *)

Definition byte_in (lo hi : N) (a : ascii) : bool :=
  (lo <=? N_of_ascii a)%N && (N_of_ascii a <=? hi)%N.

Definition byte_is (n : N) (a : ascii) : bool := (N_of_ascii a =? n)%N.

Definition ws1 (a : ascii) : bool :=
  byte_in 9 13 a || byte_is 32 a.

Definition ws2 (a b : ascii) : bool :=
  byte_is 194 a && byte_is 160 b.

Definition ws3 (a b c : ascii) : bool :=
  (byte_is 225 a && byte_is 154 b && byte_is 128 c)
  || (byte_is 226 a && byte_is 128 b
      && (byte_in 128 138 c || byte_is 168 c || byte_is 169 c || byte_is 175 c))
  || (byte_is 226 a && byte_is 129 b && byte_is 159 c)
  || (byte_is 227 a && byte_is 128 b && byte_is 128 c)
  || (byte_is 239 a && byte_is 187 b && byte_is 191 c).

(** The rest of the bytes after one leading white-space character. *)
Definition strip_ws (bs : list ascii) : option (list ascii) :=
  match bs with
  | a :: r1 =>
      if ws1 a then Some r1 else
      match r1 with
      | b :: r2 =>
          if ws2 a b then Some r2 else
          match r2 with
          | c :: r3 => if ws3 a b c then Some r3 else None
          | [] => None
          end
      | [] => None
      end
  | [] => None
  end.

(** The same from the end of the string, on the reversed bytes. *)
Definition strip_ws_rev (bs : list ascii) : option (list ascii) :=
  match bs with
  | c :: r1 =>
      if ws1 c then Some r1 else
      match r1 with
      | b :: r2 =>
          if ws2 b c then Some r2 else
          match r2 with
          | a :: r3 => if ws3 a b c then Some r3 else None
          | [] => None
          end
      | [] => None
      end
  | [] => None
  end.

Fixpoint strip_all (strip : list ascii -> option (list ascii))
    (fuel : nat) (bs : list ascii) : list ascii :=
  match fuel with
  | O => bs
  | S fuel' =>
      match strip bs with
      | Some rest => strip_all strip fuel' rest
      | None => bs
      end
  end.

Definition trimStart_bytes (bs : list ascii) : list ascii :=
  strip_all strip_ws (List.length bs) bs.

Definition trimEnd_bytes (bs : list ascii) : list ascii :=
  rev (strip_all strip_ws_rev (List.length bs) (rev bs)).

(** [String.prototype.trim] *)
Definition trim (s : string) : string :=
  string_of_list_ascii (trimEnd_bytes (trimStart_bytes (list_ascii_of_string s))).

(** *** [String.prototype.split] with a one-character separator *)

Fixpoint split (sep : ascii) (s : string) : list string :=
  match s with
  | EmptyString => [EmptyString]
  | String c rest =>
      if Ascii.eqb c sep then EmptyString :: split sep rest
      else match split sep rest with
           | piece :: pieces => String c piece :: pieces
           | [] => [String c EmptyString]
           end
  end.

(** *** [parseInt] with the radix left out

    The result is a Number; [None] stands for NaN and [Some z] for the
    Number nearest to the integer [z].  Only whether the result is NaN is
    observed by the handlers. *)

Definition digit_value (a : ascii) : option N :=
  if byte_in 48 57 a then Some (N_of_ascii a - 48)%N
  else if byte_in 97 122 a then Some (N_of_ascii a - 87)%N
  else if byte_in 65 90 a then Some (N_of_ascii a - 55)%N
  else None.

Definition radix_digit (radix : N) (a : ascii) : option N :=
  match digit_value a with
  | Some d => if (d <? radix)%N then Some d else None
  | None => None
  end.

(** The values of the longest prefix of radix-[radix] digits. *)
Fixpoint leading_digits (radix : N) (bs : list ascii) : list N :=
  match bs with
  | a :: rest =>
      match radix_digit radix a with
      | Some d => d :: leading_digits radix rest
      | None => []
      end
  | [] => []
  end.

Definition digits_value (radix : N) (ds : list N) : N :=
  fold_left (fun acc d => acc * radix + d)%N ds 0%N.

Definition strip_sign (bs : list ascii) : Z * list ascii :=
  match bs with
  | a :: rest =>
      if byte_is 45 a then ((-1)%Z, rest)
      else if byte_is 43 a then (1%Z, rest)
      else (1%Z, bs)
  | [] => (1%Z, bs)
  end.

Definition strip_hex_prefix (bs : list ascii) : N * list ascii :=
  match bs with
  | a :: b :: rest =>
      if byte_is 48 a && (byte_is 120 b || byte_is 88 b) then (16%N, rest)
      else (10%N, bs)
  | _ => (10%N, bs)
  end.

Definition parseInt (s : string) : option Z :=
  let '(sign, unsigned) := strip_sign (trimStart_bytes (list_ascii_of_string s)) in
  let '(radix, body) := strip_hex_prefix unsigned in
  match leading_digits radix body with
  | [] => None
  | ds => Some (sign * Z.of_N (digits_value radix ds))%Z
  end.

(** [isNaN] on the result of [parseInt] *)
Definition isNaN (n : option Z) : bool :=
  match n with
  | None => true
  | Some _ => false
  end.

(** *** [encodeURIComponent]

    Every byte of the UTF-8 encoding is escaped as [%XX] except the
    unreserved characters [A-Z a-z 0-9 - _ . ! ~ * ' ( )]. *)

Definition uri_unreserved (a : ascii) : bool :=
  byte_in 65 90 a || byte_in 97 122 a || byte_in 48 57 a
  || byte_is 45 a || byte_is 95 a || byte_is 46 a || byte_is 33 a
  || byte_is 126 a || byte_is 42 a || byte_is 39 a || byte_is 40 a
  || byte_is 41 a.

Definition hex_digit (n : N) : ascii :=
  if (n <? 10)%N then ascii_of_N (48 + n) else ascii_of_N (55 + n).

Definition percent_escape (a : ascii) : string :=
  String "%" (String (hex_digit (N_of_ascii a / 16))
             (String (hex_digit (N_of_ascii a mod 16)) EmptyString)).

Fixpoint encodeURIComponent (s : string) : string :=
  match s with
  | EmptyString => EmptyString
  | String a rest =>
      if uri_unreserved a then String a (encodeURIComponent rest)
      else percent_escape a ++ encodeURIComponent rest
  end.

End JS.

Import JS.

(** ** The upstream service *)

Definition ROBLOX_API_BASE_URL : string :=
  "https://games.roblox.com/v1/games/multiget-place-details".

Definition BATCH_SIZE : nat := 50.

(** The options object passed to [fetch]. *)
Record FetchInit : Type := {
  fetch_method : string;
  fetch_headers : list (string * string)
}.

(** What the handlers read of a node-fetch response.  [text] and [json]
    are the outcomes of reading the body as text and of parsing it as
    JSON; either may throw. *)
Record FetchResponse : Type := {
  status : nat;
  statusText : string;
  text : Completion string;
  json : Completion Json
}.

(** node-fetch's [Response.ok]: the status is in the range 200..299. *)
Definition ok (r : FetchResponse) : bool :=
  ((200 <=? status r) && (status r <? 300))%nat.

(** One entry of the [errors] array. *)
Record BatchError : Type := {
  batchIndex : nat;
  error_status : nat;
  error_statusText : string;
  details : string
}.

(** One upstream call: the loop index and the slice it was made for, the
    request sent and what [fetch] answered. *)
Record Call : Type := {
  call_index : nat;
  call_batch : list string;
  call_url : string;
  call_init : FetchInit;
  call_reply : Completion FetchResponse
}.

(** ** The inbound request and the response under construction *)

(** [req.query.placeIds]: missing, one string, a repeated parameter, or a
    nested object as the query parser of Express can build. *)
Inductive QueryValue : Type :=
| QAbsent
| QString (s : string)
| QArray (xs : list string)
| QObject (members : list (string * string)).

(** JavaScript truthiness: [undefined] and the empty string are falsy,
    every array and object is truthy. *)
Definition truthy (v : QueryValue) : bool :=
  match v with
  | QAbsent => false
  | QString s => negb (String.eqb s "")
  | QArray _ => true
  | QObject _ => true
  end.

Record HttpRequest : Type := {
  method : string;
  query_placeIds : QueryValue
}.

Record ServerResponse : Type := {
  res_headers : list (string * string);
  statusCode : nat;
  res_body : option Json
}.

(** A fresh response has status 200 until [res.status] changes it. *)
Definition fresh_response : ServerResponse :=
  {| res_headers := []; statusCode := 200; res_body := None |}.

Definition setHeader (name value : string) (res : ServerResponse) : ServerResponse :=
  {| res_headers := res_headers res ++ [(name, value)];
     statusCode := statusCode res;
     res_body := res_body res |}.

Definition set_status (code : nat) (res : ServerResponse) : ServerResponse :=
  {| res_headers := res_headers res; statusCode := code; res_body := res_body res |}.

Definition send_json (body : Json) (res : ServerResponse) : ServerResponse :=
  {| res_headers := res_headers res; statusCode := statusCode res; res_body := Some body |}.

Definition error_json (e : BatchError) : Json :=
  JObj [("batchIndex", JNum (Z.of_nat (batchIndex e)));
        ("status", JNum (Z.of_nat (error_status e)));
        ("statusText", JStr (error_statusText e));
        ("details", JStr (details e))].

(** A template literal renders [undefined] as the word itself. *)
Definition interpolate (v : option string) : string :=
  match v with
  | Some s => s
  | None => "undefined"
  end.

(** [placeIds.split(',').map(id => id.trim())] *)
Definition split_and_trim (s : string) : list string :=
  map trim (split "," s).

(** The shape test shared by the handlers: a string is split on commas
    and its pieces trimmed, an array is taken as it is, anything else is
    refused ([None]). *)
Definition normalize (placeIds : QueryValue) : option (list string) :=
  match placeIds with
  | QString s => Some (split_and_trim s)
  | QArray xs => Some xs
  | _ => None
  end.

(** [batch.map(id => `placeIds=${encodeURIComponent(id)}`).join('&')] *)
Definition query_params (batch : list string) : string :=
  Array_join "&" (map (fun id => "placeIds=" ++ encodeURIComponent id) batch).

Definition batch_url (batch : list string) : string :=
  ROBLOX_API_BASE_URL ++ "?" ++ query_params batch.

(** The entry pushed by the [catch] block. *)
Definition caught_error (i : nat) (message : string) : BatchError :=
  {| batchIndex := i;
     error_status := 500;
     error_statusText := "Internal Server Error";
     details := message |}.

(** ** A scripted upstream, for running the handlers

    The world is the queue of replies still to be given; when the queue is
    empty the connection fails. *)

Definition Script : Type := list (Completion FetchResponse).

Definition scripted_fetch (w : Script) (url : string) (init : FetchInit)
    : Completion FetchResponse * Script :=
  match w with
  | reply :: rest => (reply, rest)
  | [] => (Throws "connect ECONNREFUSED", [])
  end.

(** A reply with a JSON body. *)
Definition json_reply (code : nat) (reason : string) (raw : string) (body : Json)
    : Completion FetchResponse :=
  Returns {| status := code; statusText := reason;
             text := Returns raw; json := Returns body |}.

(** A reply whose body is not JSON. *)
Definition text_reply (code : nat) (reason : string) (raw : string)
    : Completion FetchResponse :=
  Returns {| status := code; statusText := reason;
             text := Returns raw;
             json := Throws "Unexpected token in JSON at position 0" |}.

Definition GET (q : QueryValue) : HttpRequest :=
  {| method := "GET"; query_placeIds := q |}.

Definition place (n : Z) : Json := JObj [("placeId", JNum n)].

(** [n] identifiers (all the same: only their number matters). *)
Definition many_ids (n : nat) : list string := repeat "1818" n.

(** An upstream that gives one reply to every call and counts the calls. *)
Definition counting_fetch (reply : Completion FetchResponse)
    (n : nat) (url : string) (init : FetchInit) : Completion FetchResponse * nat :=
  (reply, S n).

Definition not_found : Completion FetchResponse :=
  text_reply 404 "Not Found" "not found".

Definition unavailable : Completion FetchResponse :=
  text_reply 503 "Service Unavailable" "busy".

Definition two_places : Completion FetchResponse :=
  json_reply 200 "OK" "[{},{}]" (JArr [place 1; place 2]).

Definition no_places : Completion FetchResponse :=
  json_reply 200 "OK" "[]" (JArr []).

Section Proxy.

(** The state of the network and the [fetch] of node-fetch. *)
Variable World : Type.
Variable fetch : World -> string -> FetchInit -> Completion FetchResponse * World.

(** [process.env.ROBLOSECURITY_COOKIE], read once when the module loads. *)
Variable ROBLOSECURITY_COOKIE : option string.

(** The variables the batch loop mutates, with the log of its calls. *)
Record LoopState : Type := {
  allResults : list Json;
  errors : list BatchError;
  world : World;
  calls : list Call
}.

Definition initial (w : World) : LoopState :=
  {| allResults := []; errors := []; world := w; calls := [] |}.

Definition push_error (st : LoopState) (e : BatchError) : LoopState :=
  {| allResults := allResults st;
     errors := Array_push (errors st) e;
     world := world st;
     calls := calls st |}.

Definition set_allResults (st : LoopState) (rs : list Json) : LoopState :=
  {| allResults := rs; errors := errors st; world := world st; calls := calls st |}.

Record Outcome : Type := {
  response : ServerResponse;
  upstream_calls : list Call;
  final_world : World
}.

(** A response sent before the loop: nothing was fetched. *)
Definition reply_early (w : World) (res : ServerResponse) : Outcome :=
  {| response := res; upstream_calls := []; final_world := w |}.

Definition reply_after (st : LoopState) (res : ServerResponse) : Outcome :=
  {| response := res; upstream_calls := calls st; final_world := world st |}.

(** *** The batch loop

    The three handlers run the same loop over the identifiers; they differ
    in the headers they send and in how a parsed body is added to
    [allResults]. *)

Section BatchLoop.

Variable extra_headers : list (string * string).
Variable accumulate : list Json -> Json -> list Json.
Variable placeIds : list string.

Definition fetch_init : FetchInit :=
  {| fetch_method := "GET";
     fetch_headers :=
       [("Cookie", ".ROBLOSECURITY=" ++ interpolate ROBLOSECURITY_COOKIE);
        ("Accept", "application/json")] ++ extra_headers |}.

(** One iteration: the body of the [for] statement at index [i]. *)
Definition loop_body (i : nat) (st : LoopState) : LoopState :=
  let batch := Array_slice placeIds i (i + BATCH_SIZE) in
  let url := batch_url batch in
  let '(reply, w) := fetch (world st) url fetch_init in
  let st1 :=
    {| allResults := allResults st;
       errors := errors st;
       world := w;
       calls := calls st ++ [{| call_index := i; call_batch := batch;
                                call_url := url; call_init := fetch_init;
                                call_reply := reply |}] |} in
  match reply with
  | Throws message => push_error st1 (caught_error i message)
  | Returns robloxResponse =>
      if negb (ok robloxResponse) then
        match text robloxResponse with
        | Throws message => push_error st1 (caught_error i message)
        | Returns errorText =>
            push_error st1
              {| batchIndex := i;
                 error_status := status robloxResponse;
                 error_statusText := statusText robloxResponse;
                 details := errorText |}
        end
      else
        match json robloxResponse with
        | Throws message => push_error st1 (caught_error i message)
        | Returns data => set_allResults st1 (accumulate (allResults st1) data)
        end
  end.

(** [for (let i = ...; i < placeIds.length; i += BATCH_SIZE) { ... }] *)
Equations? batch_loop (i : nat) (st : LoopState) : LoopState
    by wf (List.length placeIds - i) lt :=
  batch_loop i st with lt_dec i (List.length placeIds) => {
    | left _ => batch_loop (i + BATCH_SIZE) (loop_body i st);
    | right _ => st }.
Proof. unfold BATCH_SIZE. lia. Qed.

(** The body run at each index of [js] in turn. *)
Definition iterate (js : list nat) (st : LoopState) : LoopState :=
  fold_left (fun s j => loop_body j s) js st.

(** [let allResults = []; let errors = [];] then the loop from [i = 0]. *)
Definition run_batches (w : World) : LoopState :=
  batch_loop 0 (initial w).

End BatchLoop.

(** How each variant adds a parsed body to [allResults]. *)
Definition accumulate_checked (rs : list Json) (data : Json) : list Json :=
  if Array_isArray data then Array_concat rs data else Array_push rs data.

Definition accumulate_concat (rs : list Json) (data : Json) : list Json :=
  Array_concat rs data.

(** *** The filtering handler (the unnamed serverless function) *)

(** [placeIds.filter(id => !isNaN(parseInt(id)))] *)
Definition validPlaceIds (placeIds : list string) : list string :=
  filter (fun id => negb (isNaN (parseInt id))) placeIds.

Definition cors_filtering (res : ServerResponse) : ServerResponse :=
  setHeader "Access-Control-Allow-Headers" "Origin, X-Requested-With, Content-Type, Accept"
    (setHeader "Access-Control-Allow-Methods" "GET, OPTIONS"
       (setHeader "Access-Control-Allow-Origin" "*" res)).

(** The statements after the loop: the status and body of the reply. *)
Definition filtering_reply (res : ServerResponse) (st : LoopState) : Outcome :=
  if ((0 <? List.length (errors st)) && (List.length (allResults st) =? 0))%nat then
    reply_after st
      (send_json (JObj [("error", JStr "All requests failed");
                        ("errors", JArr (map error_json (errors st)))])
         (set_status 500 res))
  else if (0 <? List.length (errors st))%nat then
    reply_after st
      (send_json (JObj [("data", JArr (allResults st));
                        ("errors", JArr (map error_json (errors st)));
                        ("message", JStr "Some batches failed.")])
         (set_status 200 res))
  else
    reply_after st
      (send_json (JObj [("data", JArr (allResults st))]) (set_status 200 res)).

Definition filtering_handler (req : HttpRequest) (w : World) : Outcome :=
  let res := cors_filtering fresh_response in
  if String.eqb (method req) "OPTIONS" then reply_early w (set_status 200 res)
  else if negb (String.eqb (method req) "GET") then
    reply_early w (send_json (JObj [("error", JStr "Method not allowed")]) (set_status 405 res))
  else
    let placeIds := query_placeIds req in
    if negb (truthy placeIds) then
      reply_early w (send_json (JObj [("error", JStr "Missing placeIds parameter.")])
                       (set_status 400 res))
    else
      match normalize placeIds with
      | None =>
          reply_early w (send_json (JObj [("error", JStr "Invalid placeIds format.")])
                           (set_status 400 res))
      | Some placeIds =>
          let valid := validPlaceIds placeIds in
          if (List.length valid =? 0)%nat then
            reply_early w (send_json (JObj [("error", JStr "No valid place IDs provided.")])
                             (set_status 400 res))
          else
            filtering_reply res
              (run_batches [("User-Agent", "Roblox/WinInet")] accumulate_checked valid w)
      end.

(** *** [api/get-place-details.js] *)

Definition cors_plain (res : ServerResponse) : ServerResponse :=
  setHeader "Access-Control-Allow-Headers" "Origin, X-Requested-With, Content-Type, Accept"
    (setHeader "Access-Control-Allow-Origin" "*" res).

Definition api_reply (res : ServerResponse) (st : LoopState) : Outcome :=
  if (0 <? List.length (errors st))%nat then
    reply_after st
      (send_json (JObj [("data", JArr (allResults st));
                        ("errors", JArr (map error_json (errors st)));
                        ("message", JStr "Some batches failed.")])
         (set_status 200 res))
  else
    reply_after st (send_json (JArr (allResults st)) res).

Definition api_handler (req : HttpRequest) (w : World) : Outcome :=
  let res := cors_plain fresh_response in
  if String.eqb (method req) "OPTIONS" then reply_early w (set_status 200 res)
  else
    let placeIds := query_placeIds req in
    if negb (truthy placeIds) then
      reply_early w (send_json (JObj [("error", JStr "Missing placeIds parameter.")])
                       (set_status 400 res))
    else
      match normalize placeIds with
      | None =>
          reply_early w (send_json (JObj [("error", JStr "Invalid placeIds format.")])
                           (set_status 400 res))
      | Some placeIds =>
          api_reply res (run_batches [] accumulate_concat placeIds w)
      end.

(** *** The route of [server.js]

    Express runs the middleware, which sets the CORS headers, and then this
    route, for the GET requests to its path. *)

Definition server_reply (res : ServerResponse) (st : LoopState) : Outcome :=
  if (0 <? List.length (errors st))%nat then
    reply_after st
      (send_json
         (JObj [("data", JArr (allResults st));
                ("errors", JArr (map error_json (errors st)));
                ("message", JStr "Some batches failed to fetch data from Roblox API.")])
         (set_status 200 res))
  else
    reply_after st (send_json (JArr (allResults st)) res).

Definition server_route (req : HttpRequest) (w : World) : Outcome :=
  let res := cors_plain fresh_response in
  let placeIds := query_placeIds req in
  if negb (truthy placeIds) then
    reply_early w (send_json (JObj [("error", JStr "Missing placeIds parameter.")])
                     (set_status 400 res))
  else
    match normalize placeIds with
    | None =>
        reply_early w
          (send_json
             (JObj [("error",
                     JStr "Invalid placeIds format. Must be a comma-separated string or an array.")])
             (set_status 400 res))
    | Some placeIds =>
        server_reply res (run_batches [] accumulate_concat placeIds w)
    end.

(** *** The route without batches (the earlier [server.js])

    All the identifiers go into one request.  A reply that is not 2xx is
    passed on with its own status, an exception becomes a 500, and a parsed
    body is sent back as it is.  The messages written to the console are
    left out. *)

(** A Number that is a natural, as a template literal renders it. *)
Definition decimal (n : nat) : string :=
  NilZero.string_of_uint (Nat.to_uint n).

Definition unbatched_route (req : HttpRequest) (w : World) : Outcome :=
  let res := cors_plain fresh_response in
  let placeIds := query_placeIds req in
  if negb (truthy placeIds) then
    reply_early w (send_json (JObj [("error", JStr "Missing placeIds parameter.")])
                     (set_status 400 res))
  else
    match normalize placeIds with
    | None =>
        reply_early w
          (send_json
             (JObj [("error",
                     JStr "Invalid placeIds format. Must be a comma-separated string or an array.")])
             (set_status 400 res))
    | Some placeIds =>
        let fullRobloxApiUrl := batch_url placeIds in
        let '(reply, w1) := fetch w fullRobloxApiUrl (fetch_init []) in
        let log := [{| call_index := 0; call_batch := placeIds;
                       call_url := fullRobloxApiUrl; call_init := fetch_init [];
                       call_reply := reply |}] in
        let caught := fun message =>
          {| response :=
               send_json
                 (JObj [("error",
                         JStr "Internal server error when fetching from Roblox API.");
                        ("details", JStr message)])
                 (set_status 500 res);
             upstream_calls := log;
             final_world := w1 |} in
        match reply with
        | Throws message => caught message
        | Returns robloxResponse =>
            if negb (ok robloxResponse) then
              match text robloxResponse with
              | Throws message => caught message
              | Returns errorText =>
                  {| response :=
                       send_json
                         (JObj [("error",
                                 JStr ("Roblox API Error: "
                                       ++ decimal (status robloxResponse) ++ " "
                                       ++ statusText robloxResponse));
                                ("details", JStr errorText)])
                         (set_status (status robloxResponse) res);
                     upstream_calls := log;
                     final_world := w1 |}
              end
            else
              match json robloxResponse with
              | Throws message => caught message
              | Returns data =>
                  {| response := send_json data res;
                     upstream_calls := log;
                     final_world := w1 |}
              end
        end
    end.

(** [served w cs w'] : from the world [w], asking [fetch] for the requests
    of [cs] one after the other gives the replies of [cs] and leaves the
    world [w']. *)
Inductive served : World -> list Call -> World -> Prop :=
| served_none (w : World) : served w [] w
| served_more (w w1 w2 : World) (cs : list Call) (c : Call) :
    served w cs w1 ->
    fetch w1 (call_url c) (call_init c) = (call_reply c, w2) ->
    served w (cs ++ [c]) w2.

End Proxy.

(** ** The vocabulary of the specification

    A call ends in a [Success] carrying the records of its body or in a
    [Failure] carrying the entry for [errors]. *)

Inductive BatchResult : Type :=
| Success (items : list Json)
| Failure (e : BatchError).

(** The records of a parsed body: the elements of an array, or the body
    itself as the only record. *)
Definition items_of (data : Json) : list Json :=
  match data with
  | JArr items => items
  | _ => [data]
  end.

Definition batch_result (c : Call) : BatchResult :=
  match call_reply c with
  | Throws message => Failure (caught_error (call_index c) message)
  | Returns r =>
      if ok r then
        match json r with
        | Returns data => Success (items_of data)
        | Throws message => Failure (caught_error (call_index c) message)
        end
      else
        match text r with
        | Returns raw =>
            Failure {| batchIndex := call_index c;
                       error_status := status r;
                       error_statusText := statusText r;
                       details := raw |}
        | Throws message => Failure (caught_error (call_index c) message)
        end
  end.

Definition succeeded (c : Call) : bool :=
  match batch_result c with
  | Success _ => true
  | Failure _ => false
  end.

(** Every [Failure] of a log, in the order of the calls. *)
Definition failures (cs : list Call) : list BatchError :=
  flat_map (fun c => match batch_result c with
                     | Failure e => [e]
                     | Success _ => []
                     end) cs.

(** The items of every [Success] of a log, in the order of the calls. *)
Definition success_items (cs : list Call) : list Json :=
  flat_map (fun c => match batch_result c with
                     | Success items => items
                     | Failure _ => []
                     end) cs.

(** The number of batches of [n] identifiers: [n / BATCH_SIZE] rounded up. *)
Definition batch_count (n : nat) : nat :=
  (n + (BATCH_SIZE - 1)) / BATCH_SIZE.

(** The batch at position [k] of the partition of [ids]. *)
Definition nth_batch (ids : list string) (k : nat) : list string :=
  Array_slice ids (k * BATCH_SIZE) (k * BATCH_SIZE + BATCH_SIZE).

(** The call the loop makes at index [i] when [fetch] answers [reply]. *)
Definition call_at (tok : option string) (hdrs : list (string * string))
    (ids : list string) (i : nat) (reply : Completion FetchResponse) : Call :=
  {| call_index := i;
     call_batch := Array_slice ids i (i + BATCH_SIZE);
     call_url := batch_url (Array_slice ids i (i + BATCH_SIZE));
     call_init := fetch_init tok hdrs;
     call_reply := reply |}.

(** Every logged call is the one the loop builds at its index. *)
Definition logged (tok : option string) (hdrs : list (string * string))
    (ids : list string) (cs : list Call) : Prop :=
  Forall (fun c => c = call_at tok hdrs ids (call_index c) (call_reply c)) cs.

(** [contains c s]: the byte [c] occurs in [s]. *)
Fixpoint contains (c : ascii) (s : string) : bool :=
  match s with
  | EmptyString => false
  | String a rest => Ascii.eqb a c || contains c rest
  end.

(** The bytes [encodeURIComponent] can produce: the unreserved characters
    and the percent sign. *)
Definition url_safe (a : ascii) : bool := uri_unreserved a || byte_is 37 a.

(** One query parameter, as the handlers write it. *)
Definition query_param (id : string) : string :=
  "placeIds=" ++ encodeURIComponent id.

(** A string that neither starts nor ends with a white-space character. *)
Definition trimmed (s : string) : bool :=
  match strip_ws (list_ascii_of_string s),
        strip_ws_rev (rev (list_ascii_of_string s)) with
  | None, None => true
  | _, _ => false
  end.

(** An integer as the specification words it: an optional sign, then one
    or more decimal digits, and nothing else. *)
Definition all_digits (bs : list ascii) : bool :=
  match bs with
  | [] => false
  | _ => forallb (byte_in 48 57) bs
  end.

Definition strict_integer (s : string) : bool :=
  match list_ascii_of_string s with
  | a :: rest =>
      if byte_is 43 a || byte_is 45 a then all_digits rest
      else all_digits (a :: rest)
  | [] => false
  end.

(** ** Checks of the built-ins on small inputs *)

Example trim_spaces : trim "  12 	" = "12".
Proof. reflexivity. Qed.

Example split_commas : split "," "1, 2,,x" = ["1"; " 2"; ""; "x"].
Proof. reflexivity. Qed.

Example parseInt_plain : parseInt "-42" = Some (-42)%Z.
Proof. reflexivity. Qed.

Example parseInt_prefix : parseInt "12abc" = Some 12%Z.
Proof. reflexivity. Qed.

Example parseInt_hex : parseInt "0x1f" = Some 31%Z.
Proof. reflexivity. Qed.

Example parseInt_word : parseInt "abc" = None.
Proof. reflexivity. Qed.

Example encode_reserved : encodeURIComponent "a b&c" = "a%20b%26c".
Proof. reflexivity. Qed.


(** ** Arithmetic of the partition *)

Local Open Scope nat_scope.
Local Open Scope list_scope.

Ltac div_facts n :=
  pose proof (Nat.div_mod_eq n 50);
  pose proof (Nat.mod_upper_bound n 50).

Lemma batch_count_0 : batch_count 0 = 0.
Proof. reflexivity. Qed.

Lemma batch_count_step (m : nat) :
  0 < m -> batch_count m = S (batch_count (m - BATCH_SIZE)).
Proof.
  unfold batch_count, BATCH_SIZE. change (50 - 1) with 49. intros Hm.
  div_facts (m + 49). div_facts (m - 50 + 49). lia.
Qed.

Lemma batch_count_div_mod (n : nat) :
  batch_count n = n / BATCH_SIZE + (if n mod BATCH_SIZE =? 0 then 0 else 1).
Proof.
  unfold batch_count, BATCH_SIZE. change (50 - 1) with 49.
  div_facts (n + 49). div_facts n.
  destruct (Nat.eqb_spec (n mod 50) 0); lia.
Qed.

Lemma batch_count_covers (n : nat) : n <= batch_count n * BATCH_SIZE.
Proof.
  unfold batch_count, BATCH_SIZE. change (50 - 1) with 49. div_facts (n + 49). lia.
Qed.

(** ** Slices *)

Lemma firstn_then_firstn (A : Type) (a b : nat) (l : list A) :
  firstn a l ++ firstn b (skipn a l) = firstn (a + b) l.
Proof.
  revert l. induction a as [|a IH]; intros [|x l]; simpl; try reflexivity.
  - now rewrite firstn_nil.
  - now rewrite IH.
Qed.

Lemma slice_length (A : Type) (l : list A) (i j : nat) :
  List.length (Array_slice l i j) = Nat.min (j - i) (List.length l - i).
Proof. unfold Array_slice. now rewrite length_firstn, length_skipn. Qed.

Lemma concat_slices (ids : list string) (c : nat) :
  List.concat (map (nth_batch ids) (seq 0 c)) = firstn (c * BATCH_SIZE) ids.
Proof.
  induction c as [|c IH]; [reflexivity|].
  rewrite seq_S, map_app, concat_app, IH. cbn [map List.concat Nat.add].
  rewrite app_nil_r. unfold nth_batch, Array_slice.
  replace (c * BATCH_SIZE + BATCH_SIZE - c * BATCH_SIZE) with BATCH_SIZE by lia.
  rewrite firstn_then_firstn. f_equal. lia.
Qed.

Lemma concat_batches (ids : list string) :
  List.concat (map (nth_batch ids) (seq 0 (batch_count (List.length ids)))) = ids.
Proof.
  rewrite concat_slices. apply firstn_all2. apply batch_count_covers.
Qed.

Lemma map_constant (A B : Type) (f : A -> B) (b : B) (l : list A) :
  (forall x, In x l -> f x = b) -> map f l = repeat b (List.length l).
Proof.
  induction l as [|x l IH]; intros H; simpl; [reflexivity|].
  rewrite (H x) by now left. f_equal. apply IH. intros y Hy. apply H. now right.
Qed.

Lemma batch_lengths (ids : list string) :
  map (fun k => List.length (nth_batch ids k)) (seq 0 (batch_count (List.length ids)))
  = repeat BATCH_SIZE (List.length ids / BATCH_SIZE)
    ++ (if List.length ids mod BATCH_SIZE =? 0 then []
        else [List.length ids mod BATCH_SIZE]).
Proof.
  set (n := List.length ids).
  rewrite batch_count_div_mod. fold n.
  rewrite seq_app, map_app. f_equal.
  - transitivity (repeat BATCH_SIZE (List.length (seq 0 (n / BATCH_SIZE))));
      [|now rewrite length_seq].
    apply map_constant. intros k Hk. apply in_seq in Hk.
    unfold nth_batch. rewrite slice_length. fold n.
    unfold BATCH_SIZE in *. div_facts n. lia.
  - destruct (Nat.eqb_spec (n mod BATCH_SIZE) 0) as [E|E]; [reflexivity|].
    cbn [seq map]. unfold nth_batch. rewrite slice_length. fold n.
    unfold BATCH_SIZE in *. div_facts n. f_equal. lia.
Qed.

(** ** The batch loop, one upstream *)

Section LoopFacts.

Variable World : Type.
Variable fetch : World -> string -> FetchInit -> Completion FetchResponse * World.
Variable tok : option string.
Variable hdrs : list (string * string).
Variable acc : list Json -> Json -> list Json.
Variable ids : list string.

Local Abbreviation body := (loop_body fetch tok hdrs acc ids).
Local Abbreviation loop := (batch_loop fetch tok hdrs acc ids).
Local Abbreviation iter := (iterate fetch tok hdrs acc ids).
Local Abbreviation mk := (call_at tok hdrs ids).

Lemma failures_app (cs ds : list Call) :
  failures (cs ++ ds) = failures cs ++ failures ds.
Proof. apply flat_map_app. Qed.

Lemma success_items_app (cs ds : list Call) :
  success_items (cs ++ ds) = success_items cs ++ success_items ds.
Proof. apply flat_map_app. Qed.

(** One iteration logs one call and, when the call fails, pushes one
    entry, whatever the accumulation does. *)
Lemma body_step (i : nat) (st : LoopState World) :
  exists reply,
    calls (body i st) = calls st ++ [mk i reply]
    /\ errors (body i st) = errors st ++ failures [mk i reply].
Proof.
  unfold loop_body.
  destruct (fetch (world st) _ _) as [reply w].
  exists reply. unfold failures, batch_result, call_at.
  destruct reply as [message|r]; cbn; [auto|].
  destruct (ok r); cbn.
  - destruct (json r) as [message|data]; cbn; rewrite ?app_nil_r; auto.
  - destruct (text r) as [message|raw]; cbn; auto.
Qed.

Lemma iterate_step (js : list nat) (j : nat) (st : LoopState World) :
  iter (js ++ [j]) st = body j (iter js st).
Proof. unfold iterate. now rewrite fold_left_app. Qed.

Lemma iterate_indices (js : list nat) (st : LoopState World) :
  map call_index (calls (iter js st)) = map call_index (calls st) ++ js.
Proof.
  induction js as [|j js IH] using rev_ind; [now rewrite app_nil_r|].
  rewrite iterate_step.
  destruct (body_step j (iter js st)) as (reply & Ec & _).
  now rewrite Ec, map_app, IH, app_assoc.
Qed.

Lemma iterate_logged (js : list nat) (st : LoopState World) :
  logged tok hdrs ids (calls st) -> logged tok hdrs ids (calls (iter js st)).
Proof.
  intros H. induction js as [|j js IH] using rev_ind; [exact H|].
  rewrite iterate_step.
  destruct (body_step j (iter js st)) as (reply & Ec & _).
  rewrite Ec. apply Forall_app. split; [exact IH|].
  constructor; [reflexivity|constructor].
Qed.

Lemma iterate_errors (js : list nat) (st : LoopState World) :
  errors st = failures (calls st) ->
  errors (iter js st) = failures (calls (iter js st)).
Proof.
  intros H. induction js as [|j js IH] using rev_ind; [exact H|].
  rewrite iterate_step.
  destruct (body_step j (iter js st)) as (reply & Ec & Ee).
  now rewrite Ec, Ee, failures_app, IH.
Qed.

(** The [for] statement: test, body, increment, again. *)
Lemma batch_loop_eq (i : nat) (st : LoopState World) :
  loop i st =
  if lt_dec i (List.length ids) then loop (i + BATCH_SIZE) (body i st) else st.
Proof.
  rewrite batch_loop_unfold_eq at 1. unfold batch_loop_unfold.
  destruct (lt_dec i (List.length ids)); reflexivity.
Qed.

(** The loop started at [i] runs the body at [i], [i + 50], ... *)
Lemma loop_unroll (m i : nat) (st : LoopState World) :
  List.length ids - i <= m ->
  loop i st =
  iter (map (fun k => i + k * BATCH_SIZE)
          (seq 0 (batch_count (List.length ids - i)))) st.
Proof.
  revert i st. induction m as [|m IH]; intros i st Hm; rewrite batch_loop_eq;
    destruct (lt_dec i (List.length ids)) as [Hlt|Hge];
    try (exfalso; lia);
    try (replace (List.length ids - i) with 0 by lia; reflexivity).
  rewrite (IH (i + BATCH_SIZE)) by (unfold BATCH_SIZE; lia).
  rewrite (batch_count_step (m := List.length ids - i)) by lia.
  replace (List.length ids - (i + BATCH_SIZE))
    with (List.length ids - i - BATCH_SIZE) by lia.
  rewrite <- cons_seq, <- seq_shift. cbn [map]. rewrite map_map.
  unfold iterate. cbn [fold_left].
  replace (i + 0 * BATCH_SIZE) with i by lia.
  f_equal. apply map_ext. intros k. lia.
Qed.

Lemma run_unroll (w : World) :
  run_batches fetch tok hdrs acc ids w =
  iter (map (fun k => k * BATCH_SIZE) (seq 0 (batch_count (List.length ids))))
    (initial w).
Proof.
  unfold run_batches. rewrite (loop_unroll (m := List.length ids)) by lia.
  rewrite Nat.sub_0_r. reflexivity.
Qed.

Lemma run_indices (w : World) :
  map call_index (calls (run_batches fetch tok hdrs acc ids w))
  = map (fun k => k * BATCH_SIZE) (seq 0 (batch_count (List.length ids))).
Proof. rewrite run_unroll, iterate_indices. reflexivity. Qed.

Lemma run_logged (w : World) :
  logged tok hdrs ids (calls (run_batches fetch tok hdrs acc ids w)).
Proof. rewrite run_unroll. apply iterate_logged. constructor. Qed.

Lemma run_errors (w : World) :
  errors (run_batches fetch tok hdrs acc ids w)
  = failures (calls (run_batches fetch tok hdrs acc ids w)).
Proof. rewrite run_unroll. now apply iterate_errors. Qed.

Lemma run_batches_of (w : World) :
  map call_batch (calls (run_batches fetch tok hdrs acc ids w))
  = map (nth_batch ids) (seq 0 (batch_count (List.length ids))).
Proof.
  pose proof (run_indices w) as Hi. pose proof (run_logged w) as Hl.
  revert Hi Hl. generalize (calls (run_batches fetch tok hdrs acc ids w)).
  generalize (seq 0 (batch_count (List.length ids))).
  intros ks cs. revert ks.
  induction cs as [|c cs IH]; intros [|k ks] Hi Hl; try discriminate; [reflexivity|].
  inversion Hl as [|? ? Hc Hcs]; subst. cbn in Hi. injection Hi as Hk Hks.
  cbn [map]. f_equal; [|now apply IH].
  rewrite Hc. cbn. rewrite Hk. reflexivity.
Qed.

(** What the loop adds to [allResults], for an accumulation that appends
    the items of the body: both variants do. *)
Hypothesis acc_items : forall rs data, acc rs data = rs ++ items_of data.

Lemma body_results (i : nat) (st : LoopState World) :
  exists reply,
    calls (body i st) = calls st ++ [mk i reply]
    /\ allResults (body i st) = allResults st ++ success_items [mk i reply].
Proof.
  unfold loop_body.
  destruct (fetch (world st) _ _) as [reply w].
  exists reply. unfold success_items, batch_result, call_at.
  destruct reply as [message|r]; cbn; [now rewrite app_nil_r|].
  destruct (ok r); cbn.
  - destruct (json r) as [message|data]; cbn;
      rewrite ?acc_items, ?app_nil_r; auto.
  - destruct (text r) as [message|raw]; cbn; rewrite ?app_nil_r; auto.
Qed.

Lemma iterate_results (js : list nat) (st : LoopState World) :
  allResults st = success_items (calls st) ->
  allResults (iter js st) = success_items (calls (iter js st)).
Proof.
  intros H. induction js as [|j js IH] using rev_ind; [exact H|].
  rewrite iterate_step.
  destruct (body_results j (iter js st)) as (reply & Ec & Er).
  now rewrite Ec, Er, success_items_app, IH.
Qed.

Lemma run_results (w : World) :
  allResults (run_batches fetch tok hdrs acc ids w)
  = success_items (calls (run_batches fetch tok hdrs acc ids w)).
Proof. rewrite run_unroll. now apply iterate_results. Qed.

End LoopFacts.

Lemma accumulate_checked_items (rs : list Json) (data : Json) :
  accumulate_checked rs data = rs ++ items_of data.
Proof. destruct data; reflexivity. Qed.

Lemma accumulate_concat_items (rs : list Json) (data : Json) :
  accumulate_concat rs data = rs ++ items_of data.
Proof. destruct data; reflexivity. Qed.

Lemma logged_map (A : Type) (tok : option string) (hdrs : list (string * string))
    (ids : list string) (f : Call -> A) (g : nat -> A) (cs : list Call) :
  (forall i reply, f (call_at tok hdrs ids i reply) = g i) ->
  logged tok hdrs ids cs ->
  map f cs = map g (map call_index cs).
Proof.
  intros Hfg Hl. induction Hl as [|c cs Hc _ IH]; [reflexivity|].
  cbn [map]. rewrite IH. f_equal. rewrite Hc at 1. apply Hfg.
Qed.

(** A log is determined by its indices and its replies. *)
Lemma logged_determined (tok : option string) (hdrs : list (string * string))
    (ids : list string) (cs ds : list Call) :
  logged tok hdrs ids cs -> logged tok hdrs ids ds ->
  map call_index cs = map call_index ds ->
  map call_reply cs = map call_reply ds ->
  cs = ds.
Proof.
  intros Hc. revert ds.
  induction Hc as [|c cs Ec _ IH]; intros [|d ds] Hd Hi Hr; try discriminate;
    [reflexivity|].
  inversion Hd as [|? ? Ed Hds]; subst.
  cbn in Hi, Hr. injection Hi as Hi0 Hi1. injection Hr as Hr0 Hr1.
  f_equal; [|now apply IH].
  rewrite Ec, Ed, Hi0, Hr0. reflexivity.
Qed.

Lemma offsets_NoDup (c : nat) :
  NoDup (map (fun k => k * BATCH_SIZE) (seq 0 c)).
Proof.
  apply Finite.Injective_map_NoDup; [|apply seq_NoDup].
  intros x y. unfold BATCH_SIZE. lia.
Qed.

Lemma loop_body_ext (World : Type)
    (fetch : World -> string -> FetchInit -> Completion FetchResponse * World)
    (tok : option string) (hdrs : list (string * string))
    (acc1 acc2 : list Json -> Json -> list Json) (ids : list string) :
  (forall rs data, acc1 rs data = acc2 rs data) ->
  forall i st,
    loop_body fetch tok hdrs acc1 ids i st = loop_body fetch tok hdrs acc2 ids i st.
Proof.
  intros H i st. unfold loop_body.
  destruct (fetch (world st) _ _) as [[message|r] w]; [reflexivity|].
  destruct (ok r); cbn; [|reflexivity].
  destruct (json r); [reflexivity|]. now rewrite H.
Qed.

Lemma run_batches_ext (World : Type)
    (fetch : World -> string -> FetchInit -> Completion FetchResponse * World)
    (tok : option string) (hdrs : list (string * string))
    (acc1 acc2 : list Json -> Json -> list Json) (ids : list string) (w : World) :
  (forall rs data, acc1 rs data = acc2 rs data) ->
  run_batches fetch tok hdrs acc1 ids w = run_batches fetch tok hdrs acc2 ids w.
Proof.
  intros H. rewrite !run_unroll. generalize (initial w).
  generalize (map (fun k => k * BATCH_SIZE) (seq 0 (batch_count (List.length ids)))).
  intros js. induction js as [|j js IH]; intros st; [reflexivity|].
  unfold iterate in *. cbn [fold_left]. rewrite (loop_body_ext _ _ _ _ _ _ H).
  apply IH.
Qed.

(** ** The partition and its dispatch *)

(** C3: whatever the upstream answers, the batches the dispatch loop takes
    from [N] identifiers are [ceil(N/50)] in number, the one at position [k]
    is the slice from offset [50 k] (so the first starts at 0), their
    lengths are 50 for each of the [N / 50] full ones followed by [N mod 50]
    when that is not zero, and their concatenation is the identifier
    sequence. *)
Theorem batch_partition (World : Type)
    (fetch : World -> string -> FetchInit -> Completion FetchResponse * World)
    (tok : option string) (hdrs : list (string * string))
    (acc : list Json -> Json -> list Json) (ids : list string) (w : World) :
  let cs := calls (run_batches fetch tok hdrs acc ids w) in
  let n := List.length ids in
  List.length cs = batch_count n
  /\ n <= batch_count n * BATCH_SIZE < n + BATCH_SIZE
  /\ map call_index cs = map (fun k => k * BATCH_SIZE) (seq 0 (batch_count n))
  /\ map call_batch cs = map (nth_batch ids) (seq 0 (batch_count n))
  /\ map (fun c => List.length (call_batch c)) cs
     = repeat BATCH_SIZE (n / BATCH_SIZE)
       ++ (if n mod BATCH_SIZE =? 0 then [] else [n mod BATCH_SIZE])
  /\ List.concat (map call_batch cs) = ids.
Proof.
  intros cs n.
  pose proof (run_indices fetch tok hdrs acc ids w) as Hi.
  pose proof (run_batches_of fetch tok hdrs acc ids w) as Hb.
  fold cs in Hi, Hb. fold n in Hi, Hb.
  repeat split.
  - rewrite <- (length_map call_index), Hi, length_map, length_seq. reflexivity.
  - apply batch_count_covers.
  - unfold batch_count, BATCH_SIZE. change (50 - 1) with 49.
    div_facts (n + 49). lia.
  - exact Hi.
  - exact Hb.
  - rewrite <- (map_map call_batch (@List.length string)), Hb, map_map.
    apply batch_lengths.
  - rewrite Hb. apply concat_batches.
Qed.

(** C9: adding a parsed body by the explicit test ([concat] for an array,
    [push] otherwise) and by the unconditional [concat] give the same
    array, for one body, for any sequence of bodies, and for the whole
    loop. *)
Theorem accumulation_equivalent :
  (forall rs data, accumulate_checked rs data = accumulate_concat rs data)
  /\ (forall bodies rs,
        fold_left accumulate_checked bodies rs
        = fold_left accumulate_concat bodies rs)
  /\ (forall (World : Type)
        (fetch : World -> string -> FetchInit -> Completion FetchResponse * World)
        (tok : option string) (hdrs : list (string * string))
        (ids : list string) (w : World),
        run_batches fetch tok hdrs accumulate_checked ids w
        = run_batches fetch tok hdrs accumulate_concat ids w).
Proof.
  assert (H : forall rs data, accumulate_checked rs data = accumulate_concat rs data).
  { intros rs data. now rewrite accumulate_checked_items, accumulate_concat_items. }
  repeat split.
  - exact H.
  - intros bodies. induction bodies as [|b bodies IH]; intros rs; [reflexivity|].
    cbn [fold_left]. rewrite H. apply IH.
  - intros. now apply run_batches_ext.
Qed.

(** ** The filtering handler *)

Section FilteringFacts.

Variable World : Type.
Variable fetch : World -> string -> FetchInit -> Completion FetchResponse * World.
Variable tok : option string.

Local Abbreviation handler := (filtering_handler fetch tok).
Local Abbreviation dispatch :=
  (run_batches fetch tok [("User-Agent", "Roblox/WinInet")] accumulate_checked).

(** Either the handler answers before the loop, with no call made, or it
    is a GET request whose identifiers pass the checks and the reply is
    built from the final state of the loop. *)
Lemma filtering_handler_paths (req : HttpRequest) (w : World) :
  (upstream_calls (handler req w) = [] /\ final_world (handler req w) = w)
  \/ (exists ids,
        method req = "GET"
        /\ truthy (query_placeIds req) = true
        /\ normalize (query_placeIds req) = Some ids
        /\ validPlaceIds ids <> []
        /\ handler req w
           = filtering_reply (cors_filtering fresh_response)
               (dispatch (validPlaceIds ids) w)).
Proof.
  unfold filtering_handler.
  destruct (String.eqb (method req) "OPTIONS"); [now left|].
  destruct (String.eqb_spec (method req) "GET") as [Hm|Hm]; cbn [negb]; [|now left].
  destruct (truthy (query_placeIds req)); cbn [negb]; [|now left].
  destruct (normalize (query_placeIds req)) as [ids|]; [|now left].
  destruct (validPlaceIds ids) as [|v vs] eqn:Hv; cbn [List.length Nat.eqb]; [now left|].
  right. exists ids. rewrite Hv. repeat split; try assumption. discriminate.
Qed.

Lemma filtering_reply_calls (res : ServerResponse) (st : LoopState World) :
  upstream_calls (filtering_reply res st) = calls st.
Proof.
  unfold filtering_reply.
  destruct (_ && _); [reflexivity|]. destruct (_ <? _); reflexivity.
Qed.

Lemma dispatch_state (ids : list string) (w : World) :
  errors (dispatch ids w) = failures (calls (dispatch ids w))
  /\ allResults (dispatch ids w) = success_items (calls (dispatch ids w)).
Proof.
  split; [apply run_errors|apply run_results, accumulate_checked_items].
Qed.

(** C1, as amended: when the calls leave at least one failure and no
    record, the filtering handler answers 500 with the error message and
    the failures; whenever they leave at least one record, it answers
    200. *)
Theorem total_failure_reply (req : HttpRequest) (w : World) :
  let o := handler req w in
  let cs := upstream_calls o in
  (failures cs <> [] /\ success_items cs = [] ->
   statusCode (response o) = 500
   /\ res_body (response o)
      = Some (JObj [("error", JStr "All requests failed");
                    ("errors", JArr (map error_json (failures cs)))]))
  /\ (success_items cs <> [] -> statusCode (response o) = 200).
Proof.
  intros o cs. subst cs o.
  destruct (filtering_handler_paths req w) as [[Ec _]|(ids & _ & _ & _ & _ & Eo)].
  - rewrite Ec. cbn. split; [intros [H _]|intros H]; now elim H.
  - rewrite Eo, filtering_reply_calls.
    destruct (dispatch_state (validPlaceIds ids) w) as [He Hr].
    rewrite <- He, <- Hr. unfold filtering_reply.
    destruct (errors _) as [|e es]; destruct (allResults _) as [|r rs]; cbn;
      split; try (intros [H1 H2]); try intros H; try congruence; auto.
Qed.

(** When the calls leave at least one failure and at least one record,
    the filtering handler answers 200 with the records of the successful
    calls in batch order, the failures in batch order, and the message. *)
Lemma filtering_partial_reply (req : HttpRequest) (w : World) :
  let o := handler req w in
  let cs := upstream_calls o in
  failures cs <> [] -> success_items cs <> [] ->
  statusCode (response o) = 200
  /\ res_body (response o)
     = Some (JObj [("data", JArr (success_items cs));
                   ("errors", JArr (map error_json (failures cs)));
                   ("message", JStr "Some batches failed.")]).
Proof.
  intros o cs. subst cs o.
  destruct (filtering_handler_paths req w) as [[Ec _]|(ids & _ & _ & _ & _ & Eo)].
  - rewrite Ec. cbn. intros H. now elim H.
  - rewrite Eo, filtering_reply_calls.
    destruct (dispatch_state (validPlaceIds ids) w) as [He Hr].
    rewrite <- He, <- Hr. unfold filtering_reply.
    destruct (errors _) as [|e es]; destruct (allResults _) as [|r rs]; cbn;
      intros H1 H2; try congruence; auto.
Qed.

(** For a GET request to the filtering handler, a missing or empty
    parameter is answered 400 "Missing placeIds parameter.", and identifiers
    none of which passes the filter are answered 400 "No valid place IDs
    provided."; in both cases no upstream call is made and the network is
    left as it was. *)
Lemma filtering_validation (req : HttpRequest) (w : World) :
  method req = "GET" ->
  let o := handler req w in
  let refused := fun message =>
    statusCode (response o) = 400
    /\ res_body (response o) = Some (JObj [("error", JStr message)])
    /\ upstream_calls o = []
    /\ final_world o = w in
  (query_placeIds req = QAbsent \/ query_placeIds req = QString "" ->
   refused "Missing placeIds parameter.")
  /\ (forall ids,
        truthy (query_placeIds req) = true ->
        normalize (query_placeIds req) = Some ids ->
        validPlaceIds ids = [] ->
        refused "No valid place IDs provided.").
Proof.
  intros Hm o refused. subst refused o. unfold filtering_handler.
  rewrite Hm. cbn [String.eqb Ascii.eqb Bool.eqb negb].
  split.
  - intros [E|E]; rewrite E; cbn; auto.
  - intros ids Ht Hn Hv. rewrite Ht, Hn, Hv. cbn. auto.
Qed.

End FilteringFacts.

(** ** Attribution of failures *)

Lemma failures_nth (cs : list Call) (k : nat) (e : BatchError) :
  nth_error (failures cs) k = Some e ->
  exists j c, nth_error cs j = Some c /\ batch_result c = Failure e /\ k <= j.
Proof.
  revert k. induction cs as [|c cs IH]; intros k H.
  - destruct k; discriminate.
  - unfold failures in H. cbn [flat_map] in H.
    destruct (batch_result c) as [items|e0] eqn:Ec.
    + destruct (IH k H) as (j & c' & Hj & Hc & Hle).
      exists (S j), c'. repeat split; auto; lia.
    + destruct k as [|k]; cbn in H.
      * injection H as ->. exists 0, c. repeat split; auto.
      * destruct (IH k H) as (j & c' & Hj & Hc & Hle).
        exists (S j), c'. repeat split; auto; lia.
Qed.

Lemma failure_index (c : Call) (e : BatchError) :
  batch_result c = Failure e -> batchIndex e = call_index c.
Proof.
  unfold batch_result.
  destruct (call_reply c) as [message|r].
  - intros H. injection H as <-. reflexivity.
  - destruct (ok r); [destruct (json r)|destruct (text r)]; intros H;
      try discriminate; injection H as <-; reflexivity.
Qed.

(** C7: the entry at any position [k] of [errors] was pushed for a failed
    call, the one at some position [j >= k] of the log, and its
    [batchIndex] is [50 j], the offset in the identifier sequence at which
    the batch of that call starts. *)
Theorem error_batchIndex_is_offset (World : Type)
    (fetch : World -> string -> FetchInit -> Completion FetchResponse * World)
    (tok : option string) (hdrs : list (string * string))
    (acc : list Json -> Json -> list Json) (ids : list string) (w : World)
    (k : nat) (e : BatchError) :
  let st := run_batches fetch tok hdrs acc ids w in
  nth_error (errors st) k = Some e ->
  exists j c,
    nth_error (calls st) j = Some c
    /\ batch_result c = Failure e
    /\ k <= j
    /\ batchIndex e = j * BATCH_SIZE
    /\ batchIndex e < List.length ids
    /\ call_batch c = Array_slice ids (batchIndex e) (batchIndex e + BATCH_SIZE).
Proof.
  intros st H. unfold st in H. rewrite run_errors in H. fold st in H.
  destruct (failures_nth _ _ H) as (j & c & Hj & Hc & Hle).
  exists j, c.
  pose proof (failure_index _ Hc) as Hi.
  assert (Hidx : call_index c = j * BATCH_SIZE
                 /\ j < batch_count (List.length ids)).
  { pose proof (map_nth_error call_index _ _ Hj) as Hn.
    unfold st in Hn. rewrite run_indices in Hn.
    assert (Hlt : j < batch_count (List.length ids)).
    { rewrite <- (length_seq (batch_count (List.length ids)) 0).
      rewrite <- (length_map (fun k => k * BATCH_SIZE)).
      apply nth_error_Some. congruence. }
    split; [|exact Hlt].
    apply (nth_error_nth _ _ 0) in Hn.
    rewrite (map_nth (fun k => k * BATCH_SIZE) _ 0 j) in Hn.
    rewrite seq_nth in Hn by exact Hlt. cbn in Hn. congruence. }
  destruct Hidx as [Hidx Hlt].
  repeat split; auto.
  - congruence.
  - rewrite Hi, Hidx.
    assert (batch_count (List.length ids) * BATCH_SIZE
            < List.length ids + BATCH_SIZE).
    { unfold batch_count, BATCH_SIZE. change (50 - 1) with 49.
      div_facts (List.length ids + 49). lia. }
    unfold BATCH_SIZE in *. nia.
  - pose proof (run_logged fetch tok hdrs acc ids w) as Hl.
    unfold logged in Hl. rewrite Forall_forall in Hl.
    rewrite (Hl c (nth_error_In _ _ Hj)), Hi. reflexivity.
Qed.

(** ** Two runs of the filtering handler *)

Lemma filtering_reply_ext (World1 World2 : Type) (res : ServerResponse)
    (st1 : LoopState World1) (st2 : LoopState World2) :
  errors st1 = errors st2 -> allResults st1 = allResults st2 ->
  response (filtering_reply res st1) = response (filtering_reply res st2).
Proof.
  intros He Hr. unfold filtering_reply. rewrite He, Hr.
  destruct (_ && _); [reflexivity|]. destruct (_ <? _); reflexivity.
Qed.

(** C8: two runs of the handler on the same request with the same token,
    against upstreams that give the same reply to each call, send the same
    response and make the same calls. *)
Theorem handler_deterministic (World1 World2 : Type)
    (fetch1 : World1 -> string -> FetchInit -> Completion FetchResponse * World1)
    (fetch2 : World2 -> string -> FetchInit -> Completion FetchResponse * World2)
    (tok : option string) (req : HttpRequest) (w1 : World1) (w2 : World2) :
  let o1 := filtering_handler fetch1 tok req w1 in
  let o2 := filtering_handler fetch2 tok req w2 in
  map call_reply (upstream_calls o1) = map call_reply (upstream_calls o2) ->
  response o1 = response o2 /\ upstream_calls o1 = upstream_calls o2.
Proof.
  intros o1 o2. subst o1 o2. unfold filtering_handler.
  destruct (String.eqb (method req) "OPTIONS"); [now split|].
  destruct (negb (String.eqb (method req) "GET")); [now split|].
  destruct (negb (truthy (query_placeIds req))); [now split|].
  destruct (normalize (query_placeIds req)) as [ids|]; [|now split].
  destruct (List.length (validPlaceIds ids) =? 0); [now split|].
  rewrite !filtering_reply_calls. intros Hr.
  set (hdrs := [("User-Agent", "Roblox/WinInet")]) in *.
  set (valid := validPlaceIds ids) in *.
  assert (Hc : calls (run_batches fetch1 tok hdrs accumulate_checked valid w1)
               = calls (run_batches fetch2 tok hdrs accumulate_checked valid w2)).
  { apply (logged_determined (tok := tok) (hdrs := hdrs) (ids := valid));
      try apply run_logged; [|exact Hr].
    now rewrite !run_indices. }
  split; [|exact Hc].
  apply filtering_reply_ext.
  - now rewrite !run_errors, Hc.
  - now rewrite !run_results, Hc by apply accumulate_checked_items.
Qed.

(** ** The variants that do not filter *)

Lemma run_batches_nil (World : Type)
    (fetch : World -> string -> FetchInit -> Completion FetchResponse * World)
    (tok : option string) (hdrs : list (string * string))
    (acc : list Json -> Json -> list Json) (w : World) :
  run_batches fetch tok hdrs acc [] w = initial w.
Proof. rewrite run_unroll. reflexivity. Qed.

(** C10: [api/get-place-details.js] (for any method but OPTIONS) and the
    route of [server.js] do not refuse an empty array: they make no
    upstream call and answer 200 with an empty array. *)
Theorem empty_array_not_rejected (World : Type)
    (fetch : World -> string -> FetchInit -> Completion FetchResponse * World)
    (tok : option string) (m : string) (w : World) :
  m <> "OPTIONS" ->
  let req := {| method := m; query_placeIds := QArray [] |} in
  let accepted := fun o : Outcome World =>
    statusCode (response o) = 200
    /\ res_body (response o) = Some (JArr [])
    /\ upstream_calls o = []
    /\ final_world o = w in
  truthy (query_placeIds req) = true
  /\ accepted (api_handler fetch tok req w)
  /\ accepted (server_route fetch tok req w).
Proof.
  intros Hm req accepted. subst req accepted.
  unfold api_handler, server_route. cbn [method query_placeIds truthy negb normalize].
  destruct (String.eqb_spec m "OPTIONS") as [E|_]; [contradiction|].
  rewrite !run_batches_nil. cbn. auto 10.
Qed.

(** ** The filter *)

Lemma strip_ws_printable (a : ascii) (r : list ascii) :
  (33 <= N_of_ascii a <= 126)%N -> strip_ws (a :: r) = None.
Proof.
  intros H. unfold strip_ws, ws1, ws2, ws3, byte_in, byte_is.
  repeat match goal with
         | |- context [(N_of_ascii a =? ?y)%N] =>
             destruct (N.eqb_spec (N_of_ascii a) y); [lia|]
         end.
  destruct (N.leb_spec 9 (N_of_ascii a)), (N.leb_spec (N_of_ascii a) 13);
    try lia; cbn; destruct r as [|b [|c r]]; reflexivity.
Qed.

Lemma trimStart_printable (a : ascii) (r : list ascii) :
  (33 <= N_of_ascii a <= 126)%N -> trimStart_bytes (a :: r) = a :: r.
Proof.
  intros H. unfold trimStart_bytes. cbn [List.length strip_all].
  now rewrite strip_ws_printable.
Qed.

Lemma digit_range (a : ascii) :
  byte_in 48 57 a = true -> (48 <= N_of_ascii a <= 57)%N.
Proof.
  unfold byte_in. intros H. apply andb_true_iff in H as [H1 H2].
  apply N.leb_le in H1, H2. lia.
Qed.

Lemma leading_digits_digit (d : ascii) (r : list ascii) :
  byte_in 48 57 d = true -> leading_digits 10 (d :: r) <> [].
Proof.
  intros H. pose proof (@digit_range _ H) as Hr.
  cbn [leading_digits]. unfold radix_digit, digit_value. rewrite H.
  destruct (N.ltb_spec (N_of_ascii d - 48) 10); [discriminate|lia].
Qed.

Lemma hex_prefix_digits (bs : list ascii) :
  forallb (byte_in 48 57) bs = true -> strip_hex_prefix bs = (10%N, bs).
Proof.
  destruct bs as [|a [|b r]]; try reflexivity. cbn [forallb]. intros H.
  apply andb_true_iff in H as [_ H]. apply andb_true_iff in H as [H _].
  pose proof (@digit_range _ H) as Hr. unfold strip_hex_prefix, byte_is.
  destruct (N.eqb_spec (N_of_ascii b) 120); [lia|].
  destruct (N.eqb_spec (N_of_ascii b) 88); [lia|].
  now rewrite andb_false_r.
Qed.

Lemma digits_parse (sign : Z) (bs : list ascii) :
  all_digits bs = true ->
  (let '(radix, body) := strip_hex_prefix bs in
   match leading_digits radix body with
   | [] => None
   | ds => Some (sign * Z.of_N (digits_value radix ds))%Z
   end) <> None.
Proof.
  destruct bs as [|d r]; [discriminate|]. unfold all_digits. intros H.
  rewrite (@hex_prefix_digits _ H). cbn [forallb] in H.
  apply andb_true_iff in H as [H _].
  pose proof (@leading_digits_digit d r H) as Hd.
  destruct (leading_digits 10 (d :: r)); [contradiction|discriminate].
Qed.

(** An integer in the specification's sense is never NaN for [parseInt]. *)
Lemma strict_integer_parses (s : string) :
  strict_integer s = true -> isNaN (parseInt s) = false.
Proof.
  unfold strict_integer, parseInt.
  destruct (list_ascii_of_string s) as [|a rest]; [discriminate|].
  destruct (byte_is 43 a || byte_is 45 a) eqn:Hs; intros H.
  - assert (Ha : (N_of_ascii a = 43 \/ N_of_ascii a = 45)%N).
    { apply orb_true_iff in Hs as [E|E]; apply N.eqb_eq in E; auto. }
    rewrite trimStart_printable by lia.
    assert (Hsign : exists z, strip_sign (a :: rest) = (z, rest)).
    { unfold strip_sign. destruct (byte_is 45 a) eqn:E45; [eauto|].
      destruct (byte_is 43 a) eqn:E43; [eauto|].
      unfold byte_is in *. apply N.eqb_neq in E45, E43. lia. }
    destruct Hsign as [z ->].
    pose proof (@digits_parse z _ H) as Hp.
    destruct (strip_hex_prefix rest) as [radix body].
    destruct (leading_digits radix body); [contradiction|reflexivity].
  - assert (Hd : byte_in 48 57 a = true).
    { unfold all_digits in H. cbn [forallb] in H.
      now apply andb_true_iff in H as [H _]. }
    pose proof (@digit_range _ Hd) as Hr.
    rewrite trimStart_printable by lia.
    assert (Hsign : strip_sign (a :: rest) = (1%Z, a :: rest)).
    { unfold strip_sign, byte_is.
      destruct (N.eqb_spec (N_of_ascii a) 45); [lia|].
      destruct (N.eqb_spec (N_of_ascii a) 43); [lia|]. reflexivity. }
    rewrite Hsign.
    pose proof (@digits_parse 1%Z _ H) as Hp.
    destruct (strip_hex_prefix (a :: rest)) as [radix body].
    destruct (leading_digits radix body); [contradiction|reflexivity].
Qed.

(** X8: the filter keeps every integer, in place. *)
Lemma strict_integers_survive (ids : list string) (id : string) :
  In id ids -> strict_integer id = true -> In id (validPlaceIds ids).
Proof.
  intros Hin Hs. apply filter_In. split; [exact Hin|].
  now rewrite strict_integer_parses.
Qed.

(** C2: the filter keeps "12abc", "0x1f" and "1.5", none of which is an
    optional sign followed by digits only, because [parseInt] reads the
    longest numeric prefix; the handler then sends "12abc" upstream. *)
Theorem filter_keeps_numeric_prefixes :
  validPlaceIds (split_and_trim "12abc, abc ,0x1f,1.5,-7")
  = ["12abc"; "0x1f"; "1.5"; "-7"]
  /\ map strict_integer ["12abc"; "0x1f"; "1.5"; "-7"] = [false; false; false; true]
  /\ map (@call_url)
       (upstream_calls
          (filtering_handler scripted_fetch None (GET (QString "12abc")) []))
     = ["https://games.roblox.com/v1/games/multiget-place-details?placeIds=12abc"].
Proof. repeat split; vm_compute; reflexivity. Qed.

(** ** The handlers on concrete requests *)

(** The scenarios of the specification, run on the filtering handler. *)

Example scenario_three_ids :
  response (filtering_handler scripted_fetch None (GET (QString "1,2,3"))
              [json_reply 200 "OK" "[{},{},{}]" (JArr [place 1; place 2; place 3])])
  = send_json (JObj [("data", JArr [place 1; place 2; place 3])])
      (set_status 200 (cors_filtering fresh_response)).
Proof. vm_compute. reflexivity. Qed.

Example scenario_not_found :
  response (filtering_handler scripted_fetch None (GET (QString "1,2")) [not_found])
  = send_json
      (JObj [("error", JStr "All requests failed");
             ("errors",
              JArr [JObj [("batchIndex", JNum 0); ("status", JNum 404);
                          ("statusText", JStr "Not Found");
                          ("details", JStr "not found")]])])
      (set_status 500 (cors_filtering fresh_response)).
Proof. vm_compute. reflexivity. Qed.

Example scenario_two_batches :
  map (fun c => (call_index c, List.length (call_batch c)))
    (upstream_calls
       (filtering_handler scripted_fetch None (GET (QArray (many_ids 75)))
          [two_places; not_found]))
  = [(0, 50); (50, 25)].
Proof. vm_compute. reflexivity. Qed.

Example scenario_other_method :
  statusCode (response (filtering_handler scripted_fetch None
                          {| method := "POST"; query_placeIds := QAbsent |} []))
  = 405.
Proof. reflexivity. Qed.

(** With 51 identifiers, a first batch answered 404 and a second batch
    answered 200 with an empty array, the second call succeeded and yet
    the filtering handler answers 500 "All requests failed". *)
Lemma all_failed_reply_despite_success :
  let o := filtering_handler scripted_fetch None (GET (QArray (many_ids 51)))
             [not_found; no_places] in
  map succeeded (upstream_calls o) = [false; true]
  /\ map (fun c => List.length (call_batch c)) (upstream_calls o) = [50; 1]
  /\ statusCode (response o) = 500
  /\ res_body (response o)
     = Some (JObj [("error", JStr "All requests failed");
                   ("errors",
                    JArr [JObj [("batchIndex", JNum 0); ("status", JNum 404);
                                ("statusText", JStr "Not Found");
                                ("details", JStr "not found")]])]).
Proof. vm_compute. repeat split. Qed.

(** The variants that do not filter never answer 500. *)
Lemma plain_variants_never_500 (World : Type)
    (fetch : World -> string -> FetchInit -> Completion FetchResponse * World)
    (tok : option string) (req : HttpRequest) (w : World) :
  statusCode (response (api_handler fetch tok req w)) <> 500
  /\ statusCode (response (server_route fetch tok req w)) <> 500.
Proof.
  unfold api_handler, server_route, api_reply, server_reply.
  destruct (String.eqb (method req) "OPTIONS");
    destruct (negb (truthy (query_placeIds req)));
    destruct (normalize (query_placeIds req)) as [ids|];
    repeat match goal with |- context [if ?b then _ else _] => destruct b end;
    cbn; split; discriminate.
Qed.

(** After a failure the variants that do not filter send the records, the
    failures and a message, each its own wording, with status 200. *)
Lemma plain_variants_partial_reply (World : Type) (res : ServerResponse)
    (st : LoopState World) :
  errors st <> [] ->
  response (api_reply res st)
  = send_json (JObj [("data", JArr (allResults st));
                     ("errors", JArr (map error_json (errors st)));
                     ("message", JStr "Some batches failed.")])
      (set_status 200 res)
  /\ response (server_reply res st)
     = send_json
         (JObj [("data", JArr (allResults st));
                ("errors", JArr (map error_json (errors st)));
                ("message", JStr "Some batches failed to fetch data from Roblox API.")])
         (set_status 200 res).
Proof.
  unfold api_reply, server_reply.
  destruct (errors st) as [|e es]; [intros H; now elim H|]. split; reflexivity.
Qed.

(** 75 identifiers, the second batch answered 404: the only entry of
    [errors], at position 0, has [batchIndex] 50. *)
Lemma error_batchIndex_is_offset_witness :
  let st := run_batches scripted_fetch None [] accumulate_checked (many_ids 75)
              [two_places; not_found] in
  nth_error (errors st) 0
  = Some {| batchIndex := 50; error_status := 404;
            error_statusText := "Not Found"; details := "not found" |}
  /\ exists j c,
       nth_error (calls st) j = Some c
       /\ batch_result c
          = Failure {| batchIndex := 50; error_status := 404;
                       error_statusText := "Not Found"; details := "not found" |}
       /\ 0 <= j
       /\ 50 = j * BATCH_SIZE
       /\ 50 < List.length (many_ids 75)
       /\ call_batch c = Array_slice (many_ids 75) 50 (50 + BATCH_SIZE).
Proof.
  assert (E : nth_error
                (errors (run_batches scripted_fetch None [] accumulate_checked
                           (many_ids 75) [two_places; not_found])) 0
              = Some {| batchIndex := 50; error_status := 404;
                        error_statusText := "Not Found"; details := "not found" |})
    by (vm_compute; reflexivity).
  split; [exact E|].
  exact (@error_batchIndex_is_offset Script scripted_fetch None [] accumulate_checked
           (many_ids 75) [two_places; not_found] 0 _ E).
Defined.

(** A scripted upstream and a counting one that give the same reply to the
    single call of the request. *)
Lemma handler_deterministic_witness :
  let o1 := filtering_handler scripted_fetch (Some "token") (GET (QString "1, 2,x,3"))
              [two_places; not_found] in
  let o2 := filtering_handler (counting_fetch two_places) (Some "token")
              (GET (QString "1, 2,x,3")) 0 in
  response o1 = response o2 /\ upstream_calls o1 = upstream_calls o2.
Proof.
  apply (@handler_deterministic Script nat scripted_fetch (counting_fetch two_places)
           (Some "token") (GET (QString "1, 2,x,3")) [two_places; not_found] 0).
  vm_compute. reflexivity.
Defined.

(** A GET request with an empty array. *)
Lemma empty_array_not_rejected_witness :
  truthy (QArray []) = true
  /\ (statusCode (response (api_handler scripted_fetch None (GET (QArray [])) [two_places])) = 200
      /\ res_body (response (api_handler scripted_fetch None (GET (QArray [])) [two_places]))
         = Some (JArr [])
      /\ upstream_calls (api_handler scripted_fetch None (GET (QArray [])) [two_places]) = []
      /\ final_world (api_handler scripted_fetch None (GET (QArray [])) [two_places])
         = [two_places])
  /\ (statusCode (response (server_route scripted_fetch None (GET (QArray [])) [two_places])) = 200
      /\ res_body (response (server_route scripted_fetch None (GET (QArray [])) [two_places]))
         = Some (JArr [])
      /\ upstream_calls (server_route scripted_fetch None (GET (QArray [])) [two_places]) = []
      /\ final_world (server_route scripted_fetch None (GET (QArray [])) [two_places])
         = [two_places]).
Proof.
  apply (@empty_array_not_rejected Script scripted_fetch None "GET" [two_places]).
  discriminate.
Defined.

(** ** Further properties of the handlers *)

Section HandlerFacts.

Variable World : Type.
Variable fetch : World -> string -> FetchInit -> Completion FetchResponse * World.
Variable tok : option string.

(** X1: a request that is not a GET never reaches the upstream: OPTIONS is
    answered 200 with no body, any other method 405. *)
Theorem method_gate (req : HttpRequest) (w : World) :
  method req <> "GET" ->
  let o := filtering_handler fetch tok req w in
  upstream_calls o = [] /\ final_world o = w
  /\ (method req = "OPTIONS" ->
      statusCode (response o) = 200 /\ res_body (response o) = None)
  /\ (method req <> "OPTIONS" ->
      statusCode (response o) = 405
      /\ res_body (response o) = Some (JObj [("error", JStr "Method not allowed")])).
Proof.
  intros Hm o. subst o. unfold filtering_handler.
  destruct (String.eqb_spec (method req) "OPTIONS") as [Eo|No].
  - cbn. repeat split; auto; intros; contradiction.
  - destruct (String.eqb_spec (method req) "GET") as [Eg|Ng]; [contradiction|].
    cbn. repeat split; auto; intros; contradiction.
Qed.

(** X2: a parameter that is neither a string nor an array is refused with 400
    by the four routes, before any upstream call. *)
Theorem invalid_shape_refused (members : list (string * string)) (w : World) :
  let req := GET (QObject members) in
  let refused := fun (o : Outcome World) (message : string) =>
    statusCode (response o) = 400
    /\ res_body (response o) = Some (JObj [("error", JStr message)])
    /\ upstream_calls o = []
    /\ final_world o = w in
  refused (filtering_handler fetch tok req w) "Invalid placeIds format."
  /\ refused (api_handler fetch tok req w) "Invalid placeIds format."
  /\ refused (server_route fetch tok req w)
       "Invalid placeIds format. Must be a comma-separated string or an array."
  /\ refused (unbatched_route fetch tok req w)
       "Invalid placeIds format. Must be a comma-separated string or an array.".
Proof. cbn. auto 20. Qed.

Lemma api_handler_paths (req : HttpRequest) (w : World) :
  (upstream_calls (api_handler fetch tok req w) = []
   /\ final_world (api_handler fetch tok req w) = w)
  \/ (exists ids,
        normalize (query_placeIds req) = Some ids
        /\ api_handler fetch tok req w
           = api_reply (cors_plain fresh_response)
               (run_batches fetch tok [] accumulate_concat ids w)).
Proof.
  unfold api_handler.
  destruct (String.eqb (method req) "OPTIONS"); [now left|].
  destruct (truthy (query_placeIds req)); cbn [negb]; [|now left].
  destruct (normalize (query_placeIds req)) as [ids|]; [|now left].
  right. now exists ids.
Qed.

Lemma server_route_paths (req : HttpRequest) (w : World) :
  (upstream_calls (server_route fetch tok req w) = []
   /\ final_world (server_route fetch tok req w) = w)
  \/ (exists ids,
        normalize (query_placeIds req) = Some ids
        /\ server_route fetch tok req w
           = server_reply (cors_plain fresh_response)
               (run_batches fetch tok [] accumulate_concat ids w)).
Proof.
  unfold server_route.
  destruct (truthy (query_placeIds req)); cbn [negb]; [|now left].
  destruct (normalize (query_placeIds req)) as [ids|]; [|now left].
  right. now exists ids.
Qed.

Lemma api_reply_calls (res : ServerResponse) (st : LoopState World) :
  upstream_calls (api_reply res st) = calls st.
Proof. unfold api_reply. destruct (_ <? _); reflexivity. Qed.

Lemma server_reply_calls (res : ServerResponse) (st : LoopState World) :
  upstream_calls (server_reply res st) = calls st.
Proof. unfold server_reply. destruct (_ <? _); reflexivity. Qed.

(** X3: every response carries the CORS headers, whichever way the request
    ends: three for the filtering handler, two for the other routes. *)
Theorem cors_headers_always (req : HttpRequest) (w : World) :
  res_headers (response (filtering_handler fetch tok req w))
  = [("Access-Control-Allow-Origin", "*");
     ("Access-Control-Allow-Methods", "GET, OPTIONS");
     ("Access-Control-Allow-Headers", "Origin, X-Requested-With, Content-Type, Accept")]
  /\ (forall o,
        o = api_handler fetch tok req w \/ o = server_route fetch tok req w
        \/ o = unbatched_route fetch tok req w ->
        res_headers (response o)
        = [("Access-Control-Allow-Origin", "*");
           ("Access-Control-Allow-Headers",
            "Origin, X-Requested-With, Content-Type, Accept")]).
Proof.
  split; [|intros o [ -> | [ -> | -> ] ]].
  - destruct (filtering_handler_paths fetch tok req w)
      as [_|(ids & _ & _ & _ & _ & ->)].
    + unfold filtering_handler.
      repeat match goal with |- context [if ?b then _ else _] => destruct b end;
        try reflexivity.
      destruct (normalize _); [|reflexivity].
      repeat match goal with |- context [if ?b then _ else _] => destruct b end;
        try reflexivity.
      unfold filtering_reply.
      repeat match goal with |- context [if ?b then _ else _] => destruct b end;
        reflexivity.
    + unfold filtering_reply.
      repeat match goal with |- context [if ?b then _ else _] => destruct b end;
        reflexivity.
  - unfold api_handler, api_reply.
    repeat match goal with |- context [if ?b then _ else _] => destruct b end;
      try reflexivity.
    destruct (normalize _); [|reflexivity].
    repeat match goal with |- context [if ?b then _ else _] => destruct b end;
      reflexivity.
  - unfold server_route, server_reply.
    repeat match goal with |- context [if ?b then _ else _] => destruct b end;
      try reflexivity.
    destruct (normalize _); [|reflexivity].
    repeat match goal with |- context [if ?b then _ else _] => destruct b end;
      reflexivity.
  - unfold unbatched_route.
    repeat match goal with |- context [if ?b then _ else _] => destruct b end;
      try reflexivity.
    destruct (normalize _) as [ids|]; [|reflexivity].
    destruct (fetch w _ _) as [[message|r] w1]; [reflexivity|].
    destruct (ok r); cbn [negb];
      [destruct (json r)|destruct (text r)]; reflexivity.
Qed.

(** X4: when calls were made and none failed, the filtering handler answers
    200 with a body that has the one member [data], the records of all the
    calls in order. *)
Theorem all_success_reply (req : HttpRequest) (w : World) :
  let o := filtering_handler fetch tok req w in
  let cs := upstream_calls o in
  cs <> [] -> failures cs = [] ->
  statusCode (response o) = 200
  /\ res_body (response o) = Some (JObj [("data", JArr (success_items cs))]).
Proof.
  intros o cs. subst cs o.
  destruct (filtering_handler_paths fetch tok req w)
    as [[Ec _]|(ids & _ & _ & _ & _ & Eo)].
  - rewrite Ec. intros H. now elim H.
  - rewrite Eo, filtering_reply_calls.
    destruct (dispatch_state fetch tok (validPlaceIds ids) w) as [He Hr].
    rewrite <- He, <- Hr. unfold filtering_reply. intros _ ->. cbn. auto.
Qed.

(** X5: the routes that do not filter answer a run without failure with the
    bare array of records and status 200. *)
Theorem plain_success_reply (req : HttpRequest) (w : World) :
  forall o,
    o = api_handler fetch tok req w \/ o = server_route fetch tok req w ->
    upstream_calls o <> [] -> failures (upstream_calls o) = [] ->
    statusCode (response o) = 200
    /\ res_body (response o) = Some (JArr (success_items (upstream_calls o))).
Proof.
  intros o [ -> | -> ].
  - destruct (api_handler_paths req w) as [[Ec _]|(ids & _ & Eo)].
    + rewrite Ec. intros H. now elim H.
    + rewrite Eo, api_reply_calls.
      rewrite <- (run_errors fetch tok [] accumulate_concat ids w).
      rewrite <- (@run_results _ fetch tok [] accumulate_concat ids accumulate_concat_items w).
      unfold api_reply. intros _ ->. cbn. auto.
  - destruct (server_route_paths req w) as [[Ec _]|(ids & _ & Eo)].
    + rewrite Ec. intros H. now elim H.
    + rewrite Eo, server_reply_calls.
      rewrite <- (run_errors fetch tok [] accumulate_concat ids w).
      rewrite <- (@run_results _ fetch tok [] accumulate_concat ids accumulate_concat_items w).
      unfold server_reply. intros _ ->. cbn. auto.
Qed.

(** X6: the filtering handler answers 500 exactly when calls failed and no
    record came back; its status is always 200, 400, 405 or 500. *)
Theorem status_500_iff (req : HttpRequest) (w : World) :
  let o := filtering_handler fetch tok req w in
  let cs := upstream_calls o in
  (statusCode (response o) = 500 <-> failures cs <> [] /\ success_items cs = [])
  /\ In (statusCode (response o)) [200; 400; 405; 500].
Proof.
  intros o cs. subst cs o. unfold filtering_handler.
  assert (early : forall res : ServerResponse,
             statusCode res <> 500 ->
             In (statusCode res) [200; 400; 405; 500] ->
             (statusCode (response (reply_early w res)) = 500 <->
              failures (upstream_calls (reply_early w res)) <> []
              /\ success_items (upstream_calls (reply_early w res)) = [])
             /\ In (statusCode (response (reply_early w res))) [200; 400; 405; 500]).
  { intros res Hn Hin. cbn. split; [|exact Hin].
    split; [contradiction|intros [H _]; now elim H]. }
  destruct (String.eqb (method req) "OPTIONS");
    [apply early; cbn; [discriminate|auto]|].
  destruct (negb (String.eqb (method req) "GET"));
    [apply early; cbn; [discriminate|auto]|].
  destruct (negb (truthy (query_placeIds req)));
    [apply early; cbn; [discriminate|auto]|].
  destruct (normalize (query_placeIds req)) as [ids|];
    [|apply early; cbn; [discriminate|auto]].
  destruct (List.length (validPlaceIds ids) =? 0);
    [apply early; cbn; [discriminate|auto]|].
  rewrite filtering_reply_calls.
  destruct (dispatch_state fetch tok (validPlaceIds ids) w) as [He Hr].
  rewrite <- He, <- Hr. unfold filtering_reply.
  destruct (errors _) as [|e es]; destruct (allResults _) as [|r rs]; cbn;
    (split; [split|auto 10]).
  all: try (intros H; discriminate H).
  all: try (intros [H1 H2]; first [discriminate H2 | now elim H1 | reflexivity]).
  intros _. split; [discriminate|reflexivity].
Qed.


End HandlerFacts.

(** ** Outcomes of the calls *)



Lemma outcome_count (cs : list Call) :
  List.length (failures cs) + List.length (filter succeeded cs) = List.length cs.
Proof.
  induction cs as [|c cs IH]; [reflexivity|].
  unfold failures, succeeded in *. cbn [flat_map filter].
  destruct (batch_result c); cbn [List.length app]; lia.
Qed.

Lemma failure_indices_in (cs : list Call) (i : nat) :
  In i (map batchIndex (failures cs)) -> In i (map call_index cs).
Proof.
  induction cs as [|c cs IH]; [auto|].
  unfold failures. cbn [flat_map map].
  destruct (batch_result c) as [items|e] eqn:Ec; cbn.
  - intros H. right. apply IH, H.
  - intros [H|H]; [left|right; apply IH, H].
    now rewrite <- (failure_index _ Ec).
Qed.

Lemma failure_indices_sorted (cs : list Call) :
  StronglySorted lt (map call_index cs) ->
  StronglySorted lt (map batchIndex (failures cs)).
Proof.
  induction cs as [|c cs IH]; intros Hs; [constructor|].
  cbn [map] in Hs. inversion Hs as [|? ? Hs' Hall]; subst.
  unfold failures. cbn [flat_map].
  destruct (batch_result c) as [items|e] eqn:Ec; cbn [app map]; [now apply IH|].
  constructor; [now apply IH|].
  rewrite (failure_index _ Ec). rewrite Forall_forall in *.
  intros i Hi. apply Hall, failure_indices_in, Hi.
Qed.

Lemma offsets_sorted (a c : nat) :
  StronglySorted lt (map (fun k => k * BATCH_SIZE) (seq a c)).
Proof.
  revert a. induction c as [|c IH]; intros a; cbn [seq map]; constructor.
  - apply IH.
  - apply Forall_forall. intros x Hx. apply in_map_iff in Hx as (k & <- & Hk).
    apply in_seq in Hk. unfold BATCH_SIZE. lia.
Qed.

Section OutcomeFacts.

Variable World : Type.
Variable fetch : World -> string -> FetchInit -> Completion FetchResponse * World.
Variable tok : option string.

(** X9: each call of the loop ends in exactly one outcome: the entries of
    [errors] and the calls that succeeded add up to the calls made, so
    [errors] never has more entries than there are batches. *)
Theorem one_outcome_per_call (hdrs : list (string * string))
    (acc : list Json -> Json -> list Json) (ids : list string) (w : World) :
  let st := run_batches fetch tok hdrs acc ids w in
  List.length (errors st) + List.length (filter succeeded (calls st))
  = List.length (calls st)
  /\ List.length (errors st) <= batch_count (List.length ids).
Proof.
  intros st. subst st. rewrite run_errors.
  pose proof (outcome_count (calls (run_batches fetch tok hdrs acc ids w))) as H.
  split; [exact H|].
  assert (El : List.length (calls (run_batches fetch tok hdrs acc ids w))
               = batch_count (List.length ids)).
  { rewrite <- (length_map call_index), run_indices, length_map, length_seq.
    reflexivity. }
  lia.
Qed.

(** X10: the [batchIndex] values of [errors] are strictly increasing: the
    entries come in batch order and no batch is reported twice. *)
Theorem error_indices_increasing (hdrs : list (string * string))
    (acc : list Json -> Json -> list Json) (ids : list string) (w : World) :
  StronglySorted lt
    (map batchIndex (errors (run_batches fetch tok hdrs acc ids w))).
Proof.
  rewrite run_errors. apply failure_indices_sorted.
  rewrite run_indices. apply offsets_sorted.
Qed.

Lemma body_served (hdrs : list (string * string))
    (acc : list Json -> Json -> list Json) (ids : list string)
    (w : World) (i : nat) (st : LoopState World) :
  served fetch w (calls st) (world st) ->
  served fetch w (calls (loop_body fetch tok hdrs acc ids i st))
    (world (loop_body fetch tok hdrs acc ids i st)).
Proof.
  intros H. unfold loop_body.
  destruct (fetch (world st) _ _) as [reply w1] eqn:Ef.
  assert (S1 : served fetch w
                 (calls st ++ [call_at tok hdrs ids i reply]) w1)
    by (eapply served_more; [exact H|exact Ef]).
  destruct reply as [message|r]; [exact S1|].
  destruct (ok r); cbn [negb];
    [destruct (json r)|destruct (text r)]; exact S1.
Qed.

Lemma run_served (hdrs : list (string * string))
    (acc : list Json -> Json -> list Json) (ids : list string) (w : World) :
  served fetch w (calls (run_batches fetch tok hdrs acc ids w))
    (world (run_batches fetch tok hdrs acc ids w)).
Proof.
  rewrite run_unroll.
  generalize (map (fun k => k * BATCH_SIZE) (seq 0 (batch_count (List.length ids)))).
  intros js. induction js as [|j js IH] using rev_ind; [constructor|].
  rewrite iterate_step. apply body_served, IH.
Qed.

(** X11: the log of every route is what [fetch] really answered: the calls are
    made one after the other, each in the world the one before left, and
    the world after the last one is the world the route ends in. *)
Theorem log_is_sequential (req : HttpRequest) (w : World) :
  forall o,
    o = filtering_handler fetch tok req w \/ o = api_handler fetch tok req w
    \/ o = server_route fetch tok req w \/ o = unbatched_route fetch tok req w ->
    served fetch w (upstream_calls o) (final_world o).
Proof.
  intros o [ -> | [ -> | [ -> | -> ] ] ].
  - destruct (filtering_handler_paths fetch tok req w)
      as [[-> ->]|(ids & _ & _ & _ & _ & ->)]; [constructor|].
    unfold filtering_reply.
    destruct (_ && _); [|destruct (_ <? _)]; apply run_served.
  - destruct (api_handler_paths fetch tok req w) as [[-> ->]|(ids & _ & ->)];
      [constructor|].
    unfold api_reply. destruct (_ <? _); apply run_served.
  - destruct (server_route_paths fetch tok req w) as [[-> ->]|(ids & _ & ->)];
      [constructor|].
    unfold server_reply. destruct (_ <? _); apply run_served.
  - unfold unbatched_route.
    destruct (negb (truthy (query_placeIds req))); [constructor|].
    destruct (normalize (query_placeIds req)) as [ids|]; [|constructor].
    destruct (fetch w _ _) as [reply w1] eqn:Ef.
    assert (S1 : served fetch w
                   [{| call_index := 0; call_batch := ids;
                       call_url := batch_url ids;
                       call_init := fetch_init tok [];
                       call_reply := reply |}] w1)
      by (apply (@served_more _ fetch w w w1 [] _ (served_none fetch w)); exact Ef).
    destruct reply as [message|r]; [exact S1|].
    destruct (ok r); cbn [negb];
      [destruct (json r)|destruct (text r)]; exact S1.
Qed.


End OutcomeFacts.

(** ** Dispatch, and what differs between the routes *)

(** C5: every batch of the partition is handed to [fetch] exactly once, in
    order: the log of the loop is what [fetch] answered, call after call,
    each call made in the world the one before left; its requests are those
    of the partition, one per batch index, with the URL built from the
    batch; and the requests are the same for any two upstreams, so what one
    batch's call returns or throws has no effect on which calls follow. *)
Theorem every_batch_dispatched_once (World1 World2 : Type)
    (fetch1 : World1 -> string -> FetchInit -> Completion FetchResponse * World1)
    (fetch2 : World2 -> string -> FetchInit -> Completion FetchResponse * World2)
    (tok : option string) (hdrs : list (string * string))
    (acc : list Json -> Json -> list Json) (ids : list string)
    (w1 : World1) (w2 : World2) :
  let request := fun c => (call_index c, call_batch c, call_url c, call_init c) in
  let st1 := run_batches fetch1 tok hdrs acc ids w1 in
  let st2 := run_batches fetch2 tok hdrs acc ids w2 in
  served fetch1 w1 (calls st1) (world st1)
  /\ served fetch2 w2 (calls st2) (world st2)
  /\ map request (calls st1)
     = map (fun k => (k * BATCH_SIZE, nth_batch ids k, batch_url (nth_batch ids k),
                      fetch_init tok hdrs))
         (seq 0 (batch_count (List.length ids)))
  /\ NoDup (map call_index (calls st1))
  /\ map request (calls st1) = map request (calls st2).
Proof.
  intros request st1 st2.
  assert (H : forall (W : Type) (f : W -> string -> FetchInit -> _ * W) (w : W),
             map request (calls (run_batches f tok hdrs acc ids w))
             = map (fun k => (k * BATCH_SIZE, nth_batch ids k,
                              batch_url (nth_batch ids k), fetch_init tok hdrs))
                 (seq 0 (batch_count (List.length ids)))).
  { intros W f w.
    rewrite (logged_map (tok := tok) (hdrs := hdrs) (ids := ids) request
               (fun i => (i, Array_slice ids i (i + BATCH_SIZE),
                          batch_url (Array_slice ids i (i + BATCH_SIZE)),
                          fetch_init tok hdrs)))
      by (reflexivity || apply run_logged).
    rewrite run_indices, map_map. reflexivity. }
  split; [apply run_served|]. split; [apply run_served|].
  repeat split.
  - apply H.
  - unfold st1. rewrite run_indices. apply offsets_NoDup.
  - unfold st1, st2. now rewrite !H.
Qed.

(** C4, as amended: when the calls leave at least one failure and at least
    one record, the filtering handler and [api/get-place-details.js] answer
    200 with the records of the successful calls in batch order, the
    failures in batch order, and the message "Some batches failed."; the
    route of [server.js] answers the same with its own, longer message. *)
Theorem partial_success_reply (World : Type)
    (fetch : World -> string -> FetchInit -> Completion FetchResponse * World)
    (tok : option string) (req : HttpRequest) (w : World) :
  forall (o : Outcome World) (message : string),
    (o = filtering_handler fetch tok req w /\ message = "Some batches failed.")
    \/ (o = api_handler fetch tok req w /\ message = "Some batches failed.")
    \/ (o = server_route fetch tok req w
        /\ message = "Some batches failed to fetch data from Roblox API.") ->
    failures (upstream_calls o) <> [] ->
    success_items (upstream_calls o) <> [] ->
    statusCode (response o) = 200
    /\ res_body (response o)
       = Some (JObj [("data", JArr (success_items (upstream_calls o)));
                     ("errors", JArr (map error_json (failures (upstream_calls o))));
                     ("message", JStr message)]).
Proof.
  intros o message [ [-> ->] | [ [-> ->] | [-> ->] ] ].
  - apply filtering_partial_reply.
  - destruct (api_handler_paths fetch tok req w) as [[Ec _]|(ids & _ & Eo)].
    + rewrite Ec. intros H. now elim H.
    + rewrite Eo, api_reply_calls.
      rewrite <- (run_errors fetch tok [] accumulate_concat ids w).
      rewrite <- (@run_results _ fetch tok [] accumulate_concat ids
                    accumulate_concat_items w).
      unfold api_reply.
      destruct (errors _) as [|e es]; [intros H; now elim H|]. cbn. auto.
  - destruct (server_route_paths fetch tok req w) as [[Ec _]|(ids & _ & Eo)].
    + rewrite Ec. intros H. now elim H.
    + rewrite Eo, server_reply_calls.
      rewrite <- (run_errors fetch tok [] accumulate_concat ids w).
      rewrite <- (@run_results _ fetch tok [] accumulate_concat ids
                    accumulate_concat_items w).
      unfold server_reply.
      destruct (errors _) as [|e es]; [intros H; now elim H|]. cbn. auto.
Qed.

(** C6, as amended: for a GET request, the filtering handler and
    [api/get-place-details.js] answer a missing or empty-string parameter
    with 400 "Missing placeIds parameter."; the filtering handler answers
    identifiers none of which passes its filter with 400 "No valid place IDs
    provided."; in each of these cases no upstream call is made and the
    network is left as it was. *)
Theorem validation_before_network (World : Type)
    (fetch : World -> string -> FetchInit -> Completion FetchResponse * World)
    (tok : option string) (req : HttpRequest) (w : World) :
  method req = "GET" ->
  let refused := fun (o : Outcome World) (message : string) =>
    statusCode (response o) = 400
    /\ res_body (response o) = Some (JObj [("error", JStr message)])
    /\ upstream_calls o = []
    /\ final_world o = w in
  (query_placeIds req = QAbsent \/ query_placeIds req = QString "" ->
   refused (filtering_handler fetch tok req w) "Missing placeIds parameter."
   /\ refused (api_handler fetch tok req w) "Missing placeIds parameter.")
  /\ (forall ids,
        truthy (query_placeIds req) = true ->
        normalize (query_placeIds req) = Some ids ->
        validPlaceIds ids = [] ->
        refused (filtering_handler fetch tok req w) "No valid place IDs provided.").
Proof.
  intros Hm refused. subst refused.
  destruct (filtering_validation fetch tok req w Hm) as [Hmissing Hinvalid].
  split.
  - intros Hq. split; [exact (Hmissing Hq)|].
    unfold api_handler. rewrite Hm. cbn [String.eqb Ascii.eqb Bool.eqb].
    destruct Hq as [E|E]; rewrite E; cbn; auto.
  - exact Hinvalid.
Qed.

(** ** The route without batches *)

Lemma not_ok_not_200 (r : FetchResponse) : ok r = false -> status r <> 200.
Proof. unfold ok. intros H E. rewrite E in H. discriminate. Qed.

Lemma slice_all (ids : list string) :
  List.length ids <= BATCH_SIZE -> Array_slice ids 0 (0 + BATCH_SIZE) = ids.
Proof.
  intros H. unfold Array_slice. cbn [skipn Nat.add]. rewrite Nat.sub_0_r.
  now apply firstn_all2.
Qed.

Section UnbatchedFacts.

Variable World : Type.
Variable fetch : World -> string -> FetchInit -> Completion FetchResponse * World.
Variable tok : option string.

Lemma run_single_batch (hdrs : list (string * string))
    (acc : list Json -> Json -> list Json) (ids : list string) (w : World) :
  0 < List.length ids <= BATCH_SIZE ->
  run_batches fetch tok hdrs acc ids w
  = loop_body fetch tok hdrs acc ids 0 (initial w).
Proof.
  intros [Hpos Hle]. rewrite run_unroll, (batch_count_step Hpos).
  replace (List.length ids - BATCH_SIZE) with 0 by lia.
  reflexivity.
Qed.

(** X13: the route without batches makes at most one call; it answers 200
    exactly when that call succeeded, and when the upstream answers with
    another status and a readable body, that status is passed on. *)
Theorem unbatched_ok_iff (req : HttpRequest) (w : World) :
  let o := unbatched_route fetch tok req w in
  List.length (upstream_calls o) <= 1
  /\ (statusCode (response o) = 200 <->
      exists c, upstream_calls o = [c] /\ succeeded c = true)
  /\ (forall c r raw,
        upstream_calls o = [c] -> call_reply c = Returns r ->
        ok r = false -> text r = Returns raw ->
        statusCode (response o) = status r).
Proof.
  intros o. subst o. unfold unbatched_route.
  assert (early : forall res : ServerResponse,
             statusCode res <> 200 ->
             List.length (upstream_calls (reply_early w res)) <= 1
             /\ (statusCode (response (reply_early w res)) = 200 <->
                 exists c, upstream_calls (reply_early w res) = [c]
                           /\ succeeded c = true)
             /\ (forall c r raw,
                   upstream_calls (reply_early w res) = [c] ->
                   call_reply c = Returns r -> ok r = false ->
                   text r = Returns raw ->
                   statusCode (response (reply_early w res)) = status r)).
  { intros res Hn. cbn. repeat split; auto.
    - contradiction.
    - intros (c & Hc & _). discriminate.
    - intros c r raw Hc. discriminate. }
  destruct (negb (truthy (query_placeIds req))); [apply early; cbn; discriminate|].
  destruct (normalize (query_placeIds req)) as [ids|];
    [|apply early; cbn; discriminate].
  destruct (fetch w _ _) as [reply w1].
  destruct reply as [message|r]; [|destruct (ok r) eqn:Hok; cbn [negb];
    [destruct (json r) as [message|data] eqn:Hj
    |destruct (text r) as [message|raw] eqn:Hx]];
    cbn [upstream_calls response List.length statusCode send_json set_status];
    (split; [lia|split; [split|]]).
  all: lazymatch goal with
       | |- (exists c, _) -> _ =>
           intros (c & Hc & Hs); injection Hc as <-;
           unfold succeeded, batch_result in Hs; cbn in Hs;
           rewrite ?Hok, ?Hj, ?Hx in Hs;
           first [discriminate Hs | reflexivity]
       | |- forall c : Call, _ =>
           intros c r0 raw0 Hc Hr Hnok Hraw; injection Hc as <-; cbn in Hr;
           first [discriminate Hr
                 | injection Hr as <-; first [congruence | reflexivity]]
       | |- _ =>
           intros H;
           first [discriminate H
                 | exfalso; now apply not_ok_not_200 in Hok
                 | eexists; split; [reflexivity|];
                   unfold succeeded, batch_result; cbn; now rewrite Hok, Hj]
       end.
Qed.

(** X14: for one to fifty identifiers the batched route of [server.js] makes the
    same single call as the route without batches and leaves the same
    world; when the call succeeds with an array, the two responses are the
    same. *)
Theorem batched_agrees_with_unbatched (req : HttpRequest) (w : World)
    (ids : list string) :
  truthy (query_placeIds req) = true ->
  normalize (query_placeIds req) = Some ids ->
  0 < List.length ids <= BATCH_SIZE ->
  let o1 := server_route fetch tok req w in
  let o2 := unbatched_route fetch tok req w in
  upstream_calls o1 = upstream_calls o2
  /\ final_world o1 = final_world o2
  /\ (forall c r items,
        upstream_calls o2 = [c] -> call_reply c = Returns r ->
        ok r = true -> json r = Returns (JArr items) ->
        response o1 = response o2).
Proof.
  intros Ht Hn Hlen o1 o2. subst o1 o2.
  unfold server_route, unbatched_route. rewrite Ht, Hn. cbn [negb].
  rewrite (@run_single_batch [] accumulate_concat ids w Hlen).
  unfold loop_body. rewrite (@slice_all ids (proj2 Hlen)).
  destruct (fetch _ _ _) as [reply w1].
  destruct reply as [message|r]; [|destruct (ok r) eqn:Hok; cbn [negb];
    [destruct (json r) as [message|data] eqn:Hj
    |destruct (text r) as [message|raw] eqn:Hx]];
    cbn; repeat split; auto;
    intros c r0 items Hc Hr Hok0 Hj0; injection Hc as <-; cbn in Hr;
    try discriminate Hr; injection Hr as <-; try congruence.
  rewrite Hj in Hj0. injection Hj0 as ->. reflexivity.
Qed.

End UnbatchedFacts.

(** ** Strings: splitting, joining and escaping *)

Lemma contains_app (c : ascii) (x y : string) :
  contains c (x ++ y) = contains c x || contains c y.
Proof.
  induction x as [|a x IH]; [reflexivity|]. cbn. now rewrite IH, orb_assoc.
Qed.

Lemma split_no_sep (sep : ascii) (x : string) :
  contains sep x = false -> split sep x = [x].
Proof.
  induction x as [|c x IH]; [reflexivity|]. cbn. intros H.
  apply orb_false_iff in H as [Hc Hx]. now rewrite Hc, (IH Hx).
Qed.

Lemma split_app_sep (sep : ascii) (x y : string) :
  contains sep x = false ->
  split sep (x ++ String sep y) = x :: split sep y.
Proof.
  induction x as [|c x IH]; cbn.
  - intros _. now rewrite Ascii.eqb_refl.
  - intros H. apply orb_false_iff in H as [Hc Hx]. now rewrite Hc, (IH Hx).
Qed.

Lemma split_join (sep : ascii) (xs : list string) :
  xs <> [] ->
  Forall (fun x => contains sep x = false) xs ->
  split sep (Array_join (String sep EmptyString) xs) = xs.
Proof.
  unfold Array_join. intros Hne Hall.
  induction Hall as [|x xs Hx Hxs IH]; [now elim Hne|].
  destruct xs as [|y ys]; [now apply split_no_sep|].
  change (String.concat (String sep "") (x :: y :: ys))
    with (x ++ String sep (String.concat (String sep "") (y :: ys)))%string.
  rewrite split_app_sep by exact Hx. f_equal. apply IH. discriminate.
Qed.

Lemma split_pieces_no_sep (sep : ascii) (s piece : string) :
  In piece (split sep s) -> contains sep piece = false.
Proof.
  revert piece. induction s as [|c s IH]; cbn; intros piece H.
  - destruct H as [<-|[]]. reflexivity.
  - destruct (Ascii.eqb c sep) eqn:Ec.
    + destruct H as [<-|H]; [reflexivity|now apply IH].
    + destruct (split sep s) as [|p ps] eqn:Es.
      * destruct H as [<-|[]]. cbn. now rewrite Ec.
      * destruct H as [<-|H]; [|apply IH; now right].
        cbn. rewrite Ec. apply IH. now left.
Qed.

Lemma hex_digit_safe (n : N) : (n < 16)%N -> url_safe (hex_digit n) = true.
Proof.
  intros H. unfold hex_digit, url_safe, uri_unreserved.
  destruct (N.ltb_spec n 10) as [Hlt|Hge].
  - assert (E : byte_in 48 57 (ascii_of_N (48 + n)) = true).
    { unfold byte_in. rewrite N_ascii_embedding by lia.
      apply andb_true_iff. split; apply N.leb_le; lia. }
    rewrite E, orb_true_r. reflexivity.
  - assert (E : byte_in 65 90 (ascii_of_N (55 + n)) = true).
    { unfold byte_in. rewrite N_ascii_embedding by lia.
      apply andb_true_iff. split; apply N.leb_le; lia. }
    rewrite E. reflexivity.
Qed.

Lemma high_nibble (a : ascii) : (N_of_ascii a / 16 < 16)%N.
Proof.
  pose proof (N_ascii_bounded a). apply N.Div0.div_lt_upper_bound. lia.
Qed.

Lemma low_nibble (a : ascii) : (N_of_ascii a mod 16 < 16)%N.
Proof. apply N.mod_lt. discriminate. Qed.

Lemma percent_escape_safe (a c : ascii) :
  contains c (percent_escape a) = true -> url_safe c = true.
Proof.
  unfold percent_escape. cbn [contains]. intros H.
  repeat (apply orb_true_iff in H as [H|H]); try discriminate H;
    apply Ascii.eqb_eq in H; subst c;
    [reflexivity|apply hex_digit_safe, high_nibble|apply hex_digit_safe, low_nibble].
Qed.

Lemma encodeURIComponent_safe (s : string) (c : ascii) :
  contains c (encodeURIComponent s) = true -> url_safe c = true.
Proof.
  induction s as [|a s IH]; cbn [encodeURIComponent]; [discriminate|].
  destruct (uri_unreserved a) eqn:Ha.
  - cbn [contains]. intros H. apply orb_true_iff in H as [H|H]; [|now apply IH].
    apply Ascii.eqb_eq in H. subst c. unfold url_safe. now rewrite Ha.
  - rewrite contains_app. intros H. apply orb_true_iff in H as [H|H];
      [now apply percent_escape_safe in H|now apply IH].
Qed.

Lemma query_param_no_amp (id : string) : contains "&" (query_param id) = false.
Proof.
  unfold query_param. rewrite contains_app. cbn [orb].
  change (contains "&" "placeIds=") with false. cbn [orb].
  destruct (contains "&" (encodeURIComponent id)) eqn:E; [|reflexivity].
  apply encodeURIComponent_safe in E. discriminate E.
Qed.

Lemma split_query_params (batch : list string) :
  batch <> [] -> split "&" (query_params batch) = map query_param batch.
Proof.
  intros Hne. unfold query_params.
  change (map (fun id => ("placeIds=" ++ encodeURIComponent id)%string) batch)
    with (map query_param batch).
  apply split_join.
  - destruct batch; [now elim Hne|discriminate].
  - apply Forall_forall. intros p Hp. apply in_map_iff in Hp as (id & <- & _).
    apply query_param_no_amp.
Qed.

(** X15: splitting the query string of a batch at the ampersands gives back one
    [placeIds=...] parameter per identifier, in order; an escaped
    identifier holds only unreserved characters and percent signs, so it
    cannot bring in an ampersand, an equal sign or any other separator. *)
Theorem query_params_roundtrip (batch : list string) :
  batch <> [] ->
  split "&" (query_params batch)
  = map (fun id => ("placeIds=" ++ encodeURIComponent id)%string) batch
  /\ (forall id c,
        In id batch -> url_safe c = false ->
        contains c (encodeURIComponent id) = false).
Proof.
  intros Hne. split; [now apply split_query_params|].
  intros id c _ Hc.
  destruct (contains c (encodeURIComponent id)) eqn:E; [|reflexivity].
  apply encodeURIComponent_safe in E. congruence.
Qed.

Lemma hex_digit_value (n : N) :
  (n < 16)%N ->
  N_of_ascii (hex_digit n) = (if (n <? 10)%N then 48 + n else 55 + n)%N.
Proof.
  intros H. unfold hex_digit.
  destruct (n <? 10)%N; apply N_ascii_embedding; lia.
Qed.

Lemma hex_digit_inj (n m : N) :
  (n < 16)%N -> (m < 16)%N -> hex_digit n = hex_digit m -> n = m.
Proof.
  intros Hn Hm E. apply (f_equal N_of_ascii) in E.
  rewrite !hex_digit_value in E by assumption.
  destruct (N.ltb_spec n 10), (N.ltb_spec m 10); lia.
Qed.

Lemma nibbles_inj (a b : ascii) :
  hex_digit (N_of_ascii a / 16) = hex_digit (N_of_ascii b / 16) ->
  hex_digit (N_of_ascii a mod 16) = hex_digit (N_of_ascii b mod 16) ->
  a = b.
Proof.
  intros Hh Hl.
  apply hex_digit_inj in Hh; try apply high_nibble.
  apply hex_digit_inj in Hl; try apply low_nibble.
  rewrite <- (ascii_N_embedding a), <- (ascii_N_embedding b). f_equal.
  rewrite (N.div_mod (N_of_ascii a) 16), (N.div_mod (N_of_ascii b) 16)
    by discriminate.
  now rewrite Hh, Hl.
Qed.

Lemma encodeURIComponent_inj (s t : string) :
  encodeURIComponent s = encodeURIComponent t -> s = t.
Proof.
  revert t. induction s as [|a s IH]; intros [|b t];
    cbn [encodeURIComponent]; try reflexivity.
  - destruct (uri_unreserved b); unfold percent_escape; cbn [String.append];
      discriminate.
  - destruct (uri_unreserved a); unfold percent_escape; cbn [String.append];
      discriminate.
  - destruct (uri_unreserved a) eqn:Ha, (uri_unreserved b) eqn:Hb;
      unfold percent_escape; cbn [String.append]; intros E.
    + injection E as -> E. f_equal. now apply IH.
    + injection E as -> _. discriminate Ha.
    + injection E as <- _. discriminate Hb.
    + injection E as Hh Hl E. f_equal; [now apply nibbles_inj|now apply IH].
Qed.

Lemma append_inv_head (x y z : string) : (x ++ y = x ++ z)%string -> y = z.
Proof.
  induction x as [|c x IH]; cbn; [auto|]. intros E. injection E as E. auto.
Qed.

Lemma map_query_param_inj (xs ys : list string) :
  map query_param xs = map query_param ys -> xs = ys.
Proof.
  revert ys. induction xs as [|x xs IH]; intros [|y ys]; try discriminate;
    [reflexivity|].
  cbn [map]. intros E. injection E as Ex Exs. f_equal; [|now apply IH].
  now apply encodeURIComponent_inj.
Qed.

Lemma query_params_cons_not_empty (x : string) (xs : list string) :
  query_params (x :: xs) <> EmptyString.
Proof.
  unfold query_params, Array_join. cbn [map String.concat].
  destruct (map _ xs); cbn; discriminate.
Qed.

(** X16: two batches with the same request URL are the same batch: escaping
    loses nothing, so distinct identifiers, or the same identifiers split
    differently, never meet in one URL. *)
Theorem batch_url_injective (xs ys : list string) :
  batch_url xs = batch_url ys -> xs = ys.
Proof.
  unfold batch_url. intros E.
  apply append_inv_head in E. apply append_inv_head in E.
  destruct xs as [|x xs], ys as [|y ys]; [reflexivity| | |].
  - symmetry in E. now apply query_params_cons_not_empty in E.
  - now apply query_params_cons_not_empty in E.
  - apply (f_equal (split "&")) in E.
    rewrite !split_query_params in E by discriminate.
    now apply map_query_param_inj.
Qed.

(** ** Trimming *)

Section Stripping.

Variable strip : list ascii -> option (list ascii).
Hypothesis strip_removes :
  forall bs rest, strip bs = Some rest -> exists h, h <> [] /\ bs = h ++ rest.

Lemma strip_nil : strip [] = None.
Proof.
  destruct (strip []) as [rest|] eqn:E; [|reflexivity].
  destruct (strip_removes E) as (h & Hh & Eh).
  destruct h; [now elim Hh|discriminate].
Qed.

(** The fuel given by the length is enough: nothing is left to strip. *)
Lemma strip_all_done (n : nat) (bs : list ascii) :
  List.length bs <= n -> strip (strip_all strip n bs) = None.
Proof.
  revert bs. induction n as [|n IH]; intros bs Hn; cbn [strip_all].
  - destruct bs; [apply strip_nil|cbn in Hn; lia].
  - destruct (strip bs) as [rest|] eqn:E; [|exact E].
    apply IH. destruct (strip_removes E) as (h & Hh & ->).
    rewrite length_app in Hn. destruct h; [now elim Hh|cbn in Hn; lia].
Qed.

Lemma strip_all_suffix (n : nat) (bs : list ascii) :
  exists h, bs = h ++ strip_all strip n bs.
Proof.
  revert bs. induction n as [|n IH]; intros bs; cbn [strip_all];
    [now exists []|].
  destruct (strip bs) as [rest|] eqn:E; [|now exists []].
  destruct (strip_removes E) as (h & _ & ->).
  destruct (IH rest) as (h' & Eh). exists (h ++ h').
  now rewrite <- app_assoc, <- Eh.
Qed.

Lemma strip_all_fixed (n : nat) (bs : list ascii) :
  strip bs = None -> strip_all strip n bs = bs.
Proof. intros E. destruct n; cbn [strip_all]; [|rewrite E]; reflexivity. Qed.

End Stripping.

Lemma strip_ws_removes (bs rest : list ascii) :
  strip_ws bs = Some rest -> exists h, h <> [] /\ bs = h ++ rest.
Proof.
  unfold strip_ws. destruct bs as [|a [|b [|c r3]]];
    repeat match goal with |- context [if ?b then _ else _] => destruct b end;
    intros E; try discriminate E; injection E as <-;
    first [now exists [a] | now exists [a; b] | now exists [a; b; c]].
Qed.

Lemma strip_ws_rev_removes (bs rest : list ascii) :
  strip_ws_rev bs = Some rest -> exists h, h <> [] /\ bs = h ++ rest.
Proof.
  unfold strip_ws_rev. destruct bs as [|a [|b [|c r3]]];
    repeat match goal with |- context [if ?b then _ else _] => destruct b end;
    intros E; try discriminate E; injection E as <-;
    first [now exists [a] | now exists [a; b] | now exists [a; b; c]].
Qed.

Lemma strip_ws_app (p rest z : list ascii) :
  strip_ws p = Some rest -> strip_ws (p ++ z) = Some (rest ++ z).
Proof.
  unfold strip_ws. destruct p as [|a p1]; [discriminate|]. cbn [app].
  destruct (ws1 a); [intros E; now injection E as <-|].
  destruct p1 as [|b p2]; [discriminate|]. cbn [app].
  destruct (ws2 a b); [intros E; now injection E as <-|].
  destruct p2 as [|c p3]; [discriminate|]. cbn [app].
  destruct (ws3 a b c); [intros E; now injection E as <-|discriminate].
Qed.

Lemma trim_bytes (s : string) :
  exists h z,
    list_ascii_of_string s = h ++ list_ascii_of_string (trim s) ++ z
    /\ strip_ws (list_ascii_of_string (trim s) ++ z) = None
    /\ strip_ws_rev (rev (list_ascii_of_string (trim s))) = None.
Proof.
  unfold trim. rewrite list_ascii_of_string_of_list_ascii.
  set (bs := list_ascii_of_string s).
  unfold trimEnd_bytes. set (y := trimStart_bytes bs).
  destruct (@strip_all_suffix strip_ws strip_ws_removes (List.length bs) bs) as (h & Eh).
  fold (trimStart_bytes bs) in Eh. fold y in Eh.
  destruct (@strip_all_suffix strip_ws_rev strip_ws_rev_removes (List.length y) (rev y))
    as (h' & Eh').
  set (t := strip_all strip_ws_rev (List.length y) (rev y)) in *.
  assert (Ey : y = rev t ++ rev h').
  { rewrite <- (rev_involutive y), Eh', rev_app_distr. reflexivity. }
  exists h, (rev h'). repeat split.
  - now rewrite <- Ey.
  - rewrite <- Ey. apply (@strip_all_done strip_ws strip_ws_removes). reflexivity.
  - rewrite rev_involutive. apply (@strip_all_done strip_ws_rev strip_ws_rev_removes).
    now rewrite length_rev.
Qed.

Lemma trim_trimmed (s : string) : trimmed (trim s) = true.
Proof.
  destruct (trim_bytes s) as (h & z & _ & Hs & He).
  unfold trimmed. rewrite He.
  destruct (strip_ws (list_ascii_of_string (trim s))) as [rest|] eqn:E;
    [|reflexivity].
  apply (@strip_ws_app _ _ z) in E. congruence.
Qed.

Lemma trimmed_fixed (s : string) : trimmed s = true -> trim s = s.
Proof.
  unfold trimmed.
  destruct (strip_ws (list_ascii_of_string s)) eqn:Es; [discriminate|].
  destruct (strip_ws_rev (rev (list_ascii_of_string s))) eqn:Ee; [discriminate|].
  intros _. unfold trim, trimStart_bytes, trimEnd_bytes.
  rewrite (@strip_all_fixed strip_ws _ _ Es), (@strip_all_fixed strip_ws_rev _ _ Ee), rev_involutive.
  apply string_of_list_ascii_of_string.
Qed.

Lemma contains_In (c : ascii) (s : string) :
  contains c s = true <-> In c (list_ascii_of_string s).
Proof.
  induction s as [|a s IH]; cbn; [split; [discriminate|contradiction]|].
  rewrite orb_true_iff, Ascii.eqb_eq, IH. reflexivity.
Qed.

Lemma trim_keeps_out (c : ascii) (s : string) :
  contains c s = false -> contains c (trim s) = false.
Proof.
  intros H. destruct (contains c (trim s)) eqn:E; [|reflexivity].
  apply contains_In in E. destruct (trim_bytes s) as (h & z & Eb & _).
  assert (Hin : In c (list_ascii_of_string s)).
  { rewrite Eb. apply in_or_app. right. apply in_or_app. now left. }
  apply contains_In in Hin. congruence.
Qed.

(** X17: every identifier taken from a comma-separated parameter has no white
    space at either end and no comma in it, and trimming it again changes
    nothing. *)
Theorem pieces_are_trimmed (s piece : string) :
  In piece (split_and_trim s) ->
  trimmed piece = true /\ contains "," piece = false /\ trim piece = piece.
Proof.
  unfold split_and_trim. intros H. apply in_map_iff in H as (raw & <- & Hraw).
  pose proof (trim_trimmed raw) as Ht. repeat split.
  - exact Ht.
  - apply trim_keeps_out. now apply (@split_pieces_no_sep "," s).
  - now apply trimmed_fixed.
Qed.

Lemma map_trim_fixed (ids : list string) :
  Forall (fun id => trimmed id = true /\ contains "," id = false) ids ->
  map trim ids = ids.
Proof.
  intros H. induction H as [|id ids [Ht _] _ IH]; [reflexivity|].
  cbn [map]. now rewrite IH, (@trimmed_fixed _ Ht).
Qed.

Lemma split_and_trim_join (ids : list string) :
  ids <> [] ->
  Forall (fun id => trimmed id = true /\ contains "," id = false) ids ->
  split_and_trim (Array_join "," ids) = ids.
Proof.
  intros Hne H. unfold split_and_trim. rewrite split_join.
  - now apply map_trim_fixed.
  - exact Hne.
  - eapply Forall_impl; [|exact H]. now intros id [_ Hc].
Qed.

(** X18: identifiers without commas or surrounding white space can be sent as
    one comma-separated string or as a repeated parameter: the four routes
    treat both the same. *)
Theorem string_and_array_agree (World : Type)
    (fetch : World -> string -> FetchInit -> Completion FetchResponse * World)
    (tok : option string) (m : string) (ids : list string) (w : World) :
  Forall (fun id => trimmed id = true /\ contains "," id = false) ids ->
  Array_join "," ids <> EmptyString ->
  let joined := {| method := m; query_placeIds := QString (Array_join "," ids) |} in
  let repeated := {| method := m; query_placeIds := QArray ids |} in
  normalize (query_placeIds joined) = Some ids
  /\ filtering_handler fetch tok joined w = filtering_handler fetch tok repeated w
  /\ api_handler fetch tok joined w = api_handler fetch tok repeated w
  /\ server_route fetch tok joined w = server_route fetch tok repeated w
  /\ unbatched_route fetch tok joined w = unbatched_route fetch tok repeated w.
Proof.
  intros Hall Hne joined repeated. subst joined repeated.
  assert (Hids : ids <> []) by (intros ->; now apply Hne).
  assert (Hn : normalize (QString (Array_join "," ids)) = Some ids).
  { cbn [normalize]. f_equal. now apply split_and_trim_join. }
  assert (Ht : truthy (QString (Array_join "," ids)) = true).
  { cbn [truthy]. destruct (String.eqb_spec (Array_join "," ids) "");
      [contradiction|reflexivity]. }
  unfold filtering_handler, api_handler, server_route, unbatched_route.
  cbn [method query_placeIds]. rewrite Hn, Ht. cbn [truthy normalize negb].
  repeat split.
Qed.

(** ** The further properties on concrete requests *)

(** A POST request with identifiers. *)
Lemma method_gate_witness :
  let o := filtering_handler scripted_fetch None
             {| method := "POST"; query_placeIds := QString "1,2" |} [two_places] in
  upstream_calls o = [] /\ final_world o = [two_places]
  /\ statusCode (response o) = 405.
Proof.
  destruct (@method_gate Script scripted_fetch None
              {| method := "POST"; query_placeIds := QString "1,2" |} [two_places])
    as (H1 & H2 & _ & H4); [discriminate|].
  intros o. subst o. split; [exact H1|split; [exact H2|apply H4; discriminate]].
Defined.

(** 75 identifiers, both batches answered with two records. *)
Lemma all_success_reply_witness :
  let o := filtering_handler scripted_fetch None (GET (QArray (many_ids 75)))
             [two_places; two_places] in
  statusCode (response o) = 200
  /\ res_body (response o)
     = Some (JObj [("data", JArr [place 1; place 2; place 1; place 2])]).
Proof.
  assert (H := @all_success_reply Script scripted_fetch None
                 (GET (QArray (many_ids 75))) [two_places; two_places]).
  vm_compute in H. vm_compute. apply H; [discriminate|reflexivity].
Defined.

(** Two identifiers answered with two records, on the route of
    [api/get-place-details.js]. *)
Lemma plain_success_reply_witness :
  let o := api_handler scripted_fetch None (GET (QString "1,2")) [two_places] in
  statusCode (response o) = 200
  /\ res_body (response o) = Some (JArr [place 1; place 2]).
Proof.
  assert (H := @plain_success_reply Script scripted_fetch None
                 (GET (QString "1,2")) [two_places] _ (or_introl eq_refl)).
  vm_compute in H. vm_compute. apply H; [discriminate|reflexivity].
Defined.


(** 75 identifiers against a script of two replies. *)
Lemma log_is_sequential_witness :
  served scripted_fetch [two_places; not_found]
    (upstream_calls
       (filtering_handler scripted_fetch None (GET (QArray (many_ids 75)))
          [two_places; not_found]))
    (final_world
       (filtering_handler scripted_fetch None (GET (QArray (many_ids 75)))
          [two_places; not_found])).
Proof.
  apply (@log_is_sequential Script scripted_fetch None
           (GET (QArray (many_ids 75))) [two_places; not_found]).
  left. reflexivity.
Defined.


(** Two identifiers answered with an array of two records. *)
Lemma batched_agrees_with_unbatched_witness :
  response (server_route scripted_fetch None (GET (QString "1,2")) [two_places])
  = response (unbatched_route scripted_fetch None (GET (QString "1,2")) [two_places])
  /\ upstream_calls (server_route scripted_fetch None (GET (QString "1,2")) [two_places])
     = upstream_calls
         (unbatched_route scripted_fetch None (GET (QString "1,2")) [two_places]).
Proof.
  destruct (@batched_agrees_with_unbatched Script scripted_fetch None
              (GET (QString "1,2")) [two_places] ["1"; "2"])
    as (H1 & _ & H3);
    [reflexivity|reflexivity|split; cbv; repeat constructor|].
  split; [|exact H1].
  eapply H3; reflexivity.
Defined.

(** An identifier that tries to bring in a parameter of its own. *)
Lemma query_params_roundtrip_witness :
  split "&" (query_params ["1&admin=true"; "2"])
  = ["placeIds=1%26admin%3Dtrue"; "placeIds=2"].
Proof.
  destruct (@query_params_roundtrip ["1&admin=true"; "2"]) as [H _];
    [discriminate|].
  vm_compute in H. vm_compute. exact H.
Defined.

Lemma batch_url_injective_witness : ["1 2"; "3"] = ["1 2"; "3"].
Proof. apply (@batch_url_injective ["1 2"; "3"] ["1 2"; "3"]). reflexivity. Defined.

(** A parameter with spaces around its pieces. *)
Lemma pieces_are_trimmed_witness :
  trimmed "12" = true /\ contains "," "12" = false /\ trim "12" = "12".
Proof.
  apply (@pieces_are_trimmed " 12 , 3" "12"). left. reflexivity.
Defined.

Lemma string_and_array_agree_witness :
  filtering_handler scripted_fetch None (GET (QString "1,2")) [two_places]
  = filtering_handler scripted_fetch None (GET (QArray ["1"; "2"])) [two_places].
Proof.
  destruct (@string_and_array_agree Script scripted_fetch None "GET" ["1"; "2"]
              [two_places])
    as (_ & H & _); [repeat constructor|discriminate|exact H].
Defined.

Lemma strict_integers_survive_witness :
  In "-42" (validPlaceIds ["abc"; "-42"; "7x"]).
Proof.
  apply (@strict_integers_survive ["abc"; "-42"; "7x"] "-42");
    [right; left; reflexivity|reflexivity].
Defined.

(** X19: the route without batches puts all the identifiers it is given, few,
    many or none, into the URL of one call. *)
Theorem unbatched_one_call (World : Type)
    (fetch : World -> string -> FetchInit -> Completion FetchResponse * World)
    (tok : option string) (req : HttpRequest) (w : World) (ids : list string) :
  truthy (query_placeIds req) = true ->
  normalize (query_placeIds req) = Some ids ->
  let cs := upstream_calls (unbatched_route fetch tok req w) in
  map call_batch cs = [ids]
  /\ map call_url cs = [batch_url ids]
  /\ map call_reply cs = [fst (fetch w (batch_url ids) (fetch_init tok []))].
Proof.
  intros Ht Hn cs. subst cs. unfold unbatched_route. rewrite Ht, Hn. cbn [negb].
  destruct (fetch w _ _) as [reply w1].
  destruct reply as [message|r]; [auto|].
  destruct (ok r); cbn [negb]; [destruct (json r)|destruct (text r)]; auto.
Qed.

(** 120 identifiers, and none. *)
Lemma unbatched_one_call_witness :
  map (fun c => List.length (call_batch c))
    (upstream_calls
       (unbatched_route scripted_fetch None (GET (QArray (many_ids 120))) []))
  = [120]
  /\ map call_url
       (upstream_calls (unbatched_route scripted_fetch None (GET (QArray [])) []))
     = ["https://games.roblox.com/v1/games/multiget-place-details?"].
Proof.
  destruct (@unbatched_one_call Script scripted_fetch None
              (GET (QArray (many_ids 120))) [] (many_ids 120) eq_refl eq_refl)
    as (H1 & _).
  destruct (@unbatched_one_call Script scripted_fetch None
              (GET (QArray [])) [] [] eq_refl eq_refl)
    as (_ & H2 & _).
  split.
  - rewrite <- (map_map call_batch (@List.length string)), H1. reflexivity.
  - exact H2.
Defined.

(** 75 identifiers, the first batch answered with two records and the
    second with 503, on the filtering handler. *)
Lemma partial_success_reply_witness :
  let o := filtering_handler scripted_fetch (Some "token")
             (GET (QArray (many_ids 75))) [two_places; unavailable] in
  statusCode (response o) = 200
  /\ res_body (response o)
     = Some (JObj [("data", JArr [place 1; place 2]);
                   ("errors",
                    JArr [JObj [("batchIndex", JNum 50); ("status", JNum 503);
                                ("statusText", JStr "Service Unavailable");
                                ("details", JStr "busy")]]);
                   ("message", JStr "Some batches failed.")]).
Proof.
  assert (H := @partial_success_reply Script scripted_fetch (Some "token")
                 (GET (QArray (many_ids 75))) [two_places; unavailable]
                 _ _ (or_introl (conj eq_refl eq_refl))).
  vm_compute in H. vm_compute. apply H; discriminate.
Defined.

(** The same request on the route of [server.js]: the status, the records
    and the failures are as claimed, the message is not. *)
Lemma server_partial_reply_message :
  let o := server_route scripted_fetch (Some "token")
             (GET (QArray (many_ids 75))) [two_places; unavailable] in
  failures (upstream_calls o) <> []
  /\ success_items (upstream_calls o) <> []
  /\ statusCode (response o) = 200
  /\ res_body (response o)
     = Some (JObj [("data", JArr [place 1; place 2]);
                   ("errors",
                    JArr [JObj [("batchIndex", JNum 50); ("status", JNum 503);
                                ("statusText", JStr "Service Unavailable");
                                ("details", JStr "busy")]]);
                   ("message",
                    JStr "Some batches failed to fetch data from Roblox API.")])
  /\ res_body (response o)
     <> Some (JObj [("data", JArr [place 1; place 2]);
                    ("errors",
                     JArr [JObj [("batchIndex", JNum 50); ("status", JNum 503);
                                 ("statusText", JStr "Service Unavailable");
                                 ("details", JStr "busy")]]);
                    ("message", JStr "Some batches failed.")]).
Proof. vm_compute. repeat split; discriminate. Qed.

(** An empty parameter on both handlers, and a parameter with no numeric
    piece on the filtering handler. *)
Lemma validation_before_network_witness :
  let refused := fun (o : Outcome Script) (message : string) =>
    statusCode (response o) = 400
    /\ res_body (response o) = Some (JObj [("error", JStr message)])
    /\ upstream_calls o = []
    /\ final_world o = [two_places] in
  (refused (filtering_handler scripted_fetch None (GET (QString "")) [two_places])
     "Missing placeIds parameter."
   /\ refused (api_handler scripted_fetch None (GET (QString "")) [two_places])
        "Missing placeIds parameter.")
  /\ refused (filtering_handler scripted_fetch None (GET (QString "abc,def"))
               [two_places])
       "No valid place IDs provided.".
Proof.
  split.
  - apply (@validation_before_network Script scripted_fetch None
             (GET (QString "")) [two_places] eq_refl).
    right. reflexivity.
  - apply (@validation_before_network Script scripted_fetch None
             (GET (QString "abc,def")) [two_places] eq_refl)
      with (ids := ["abc"; "def"]); reflexivity.
Defined.

(** [api/get-place-details.js] has no filter: a parameter none of whose
    pieces is numeric is sent upstream, and the answer is 200. *)
Lemma api_sends_unfiltered :
  let o := api_handler scripted_fetch None (GET (QString "abc,def")) [not_found] in
  normalize (QString "abc,def") = Some ["abc"; "def"]
  /\ validPlaceIds ["abc"; "def"] = []
  /\ map call_url (upstream_calls o)
     = ["https://games.roblox.com/v1/games/multiget-place-details?placeIds=abc&placeIds=def"]
  /\ final_world o = []
  /\ statusCode (response o) = 200.
Proof. vm_compute. repeat split. Qed.
